(** * A shallow embedding of the [log] package (a facade over zap)

    The package wraps [go.uber.org/zap]: a [Logger] holds a pointer to a
    zap logger and an atomic level; the leveled methods funnel through
    [logw], which turns a variadic [[]interface{}] into zap fields.

    Layout of this file:
    - the data: levels, fields, the values an [interface{}] holds;
    - [zap], [otel], [zapcore], [zaplog]: the parts of the imported
      libraries that the package calls (field constructors, trace ids,
      cores and checked entries, the zap logger), written after the
      behaviour of those libraries;
    - [Log]: the package itself, function by function, over an explicit
      store (logger structs, atomic level cells, the singleton slot and
      the records written to the sink), in a state monad in which a call
      returns, panics or exits;
    - [Normalizer]: the slot-by-slot reading of an argument list, with
      which the loop of [logw] is compared;
    - what [logw] writes on a logger over an io core, and the claims. *)

From Stdlib Require Import ZArith String Ascii List Sorted Lia.
From Stdlib.Strings Require Import Byte.
From stdpp Require Import base list vector.

Set Warnings "-register-all".

Open Scope string_scope.
Open Scope list_scope.
Open Scope Z_scope.

(** ** Levels, fields and dynamically typed values (zapcore) *)

(** Modelled from the spec: the package's [Level] type and its level
    constants, whose declaration is not among the sources. Section 4.4
    orders the severities Debug < Info < Warn < Error < DPanic < Panic <
    Fatal, and [SetLevel] hands a [Level] to [zap.AtomicLevel.SetLevel]
    unconverted, so the type is [zapcore.Level], an [int8], with zap's
    values from -1 to 5. *)
Definition Level := Z.

Definition DebugLevel : Level := -1.
Definition InfoLevel : Level := 0.
Definition WarnLevel : Level := 1.
Definition ErrorLevel : Level := 2.
Definition DPanicLevel : Level := 3.
Definition PanicLevel : Level := 4.
Definition FatalLevel : Level := 5.

(** The members of [zapcore.FieldType] that the package produces. *)
Inductive FieldType :=
| UnknownType
| ArrayMarshalerType
| ObjectMarshalerType
| BinaryType
| BoolType
| ByteStringType
| Int64Type
| StringType
| Uint64Type
| ReflectType
| NamespaceType
| ErrorType
| SkipType.

(** [zapcore.Field], over the type of what its [Interface] member holds. *)
Record FieldOf (V : Type) := mkField {
  Key : string;
  Type_ : FieldType;
  Integer : Z;
  String_ : string;
  Interface : V
}.
Arguments mkField {V} _ _ _ _ _.
Arguments Key {V} _.
Arguments Type_ {V} _.
Arguments Integer {V} _.
Arguments String_ {V} _.
Arguments Interface {V} _.

(** [invalidPair] of the package, over the type of its key and value. *)
Record invalidPairOf (V : Type) := mkInvalidPair {
  position : Z;
  key : V;
  value : V
}.
Arguments mkInvalidPair {V} _ _ _.
Arguments position {V} _.
Arguments key {V} _.
Arguments value {V} _.

(** A trace identifier is a [[16]byte]. *)
Definition TraceID := vec byte 16.

(** A non-nil [context.Context], as far as the package looks at it: the
    trace id of the span stored in it, if a span is stored. (Contexts
    whose [Value] method itself faults are not modelled.) *)
Record ctxImpl := mkCtx { ctxSpan : option TraceID }.

(** A [context.Context] interface value; [None] is the nil interface. *)
Definition Context := option ctxImpl.


(** What an [interface{}] element of the variadic tail can hold. The
    type assertions of [logw] tell fields, contexts and strings apart;
    the other constructors stand for everything else. *)
Inductive Value :=
| VNil
| VBool (b : bool)
| VInt (z : Z)
| VString (s : string)
| VBytes (bs : list byte)
| VError (msg : string)
| VContext (c : ctxImpl)
| VField (f : FieldOf Value)
| VInvalidPairs (ps : list (invalidPairOf Value)).

Definition Field := FieldOf Value.
Definition invalidPair := invalidPairOf Value.
Definition invalidPairs := list invalidPair.

(** Two's complement reading of a 64 bit pattern ([int64(x)] of a
    [uint64]). *)
Definition int64_of_uint64 (x : Z) : Z :=
  let r := x mod 2 ^ 64 in
  if r <? 2 ^ 63 then r else r - 2 ^ 64.

Module zap.

(** [zap.Reflect], [zap.String], [zap.Int64], [zap.Bool],
    [zap.NamedError], [zap.Skip] and [zap.Array]. *)
Definition Reflect (k : string) (v : Value) : Field :=
  mkField k ReflectType 0 "" v.
Definition String (k : string) (s : string) : Field :=
  mkField k StringType 0 s VNil.
Definition Int64 (k : string) (z : Z) : Field :=
  mkField k Int64Type z "" VNil.
Definition Bool (k : string) (b : bool) : Field :=
  mkField k BoolType (if b then 1 else 0) "" VNil.
Definition Binary (k : string) (bs : list byte) : Field :=
  mkField k BinaryType 0 "" (VBytes bs).
Definition NamedError (k : string) (msg : string) : Field :=
  mkField k ErrorType 0 "" (VError msg).
Definition Array (k : string) (v : Value) : Field :=
  mkField k ArrayMarshalerType 0 "" v.

(** [zap.Any]: a type switch on the value; the shapes without a
    dedicated kind fall back to [Reflect]. *)
Definition Any (k : string) (v : Value) : Field :=
  match v with
  | VBool b => Bool k b
  | VInt z => Int64 k z
  | VString s => String k s
  | VBytes bs => Binary k bs
  | VError msg => NamedError k msg
  | VInvalidPairs _ => Array k v
  | VNil | VContext _ | VField _ => Reflect k v
  end.

End zap.

(** ** Trace identifiers (go.opentelemetry.io/otel/trace) *)

Module otel.

Definition nilTraceID : TraceID := vreplicate 16 x00.

(** [bytes.Equal]. *)
Fixpoint bytes_Equal (a b : list byte) : bool :=
  match a, b with
  | [], [] => true
  | x :: a', y :: b' => Byte.eqb x y && bytes_Equal a' b'
  | _, _ => false
  end.

(** [TraceID.IsValid]: the identifier differs from the all-zero one. *)
Definition IsValid (t : TraceID) : bool :=
  negb (bytes_Equal (vec_to_list t) (vec_to_list nilTraceID)).

Definition hexdigit (n : N) : ascii :=
  match String.get (N.to_nat n) "0123456789abcdef" with
  | Some c => c
  | None => "0"%char
  end.

(** [hex.EncodeToString]: two lower-case digits per byte. *)
Fixpoint hex (bs : list byte) : string :=
  match bs with
  | [] => EmptyString
  | b :: r =>
      String.String (hexdigit (N.div (Byte.to_N b) 16))
        (String.String (hexdigit (N.modulo (Byte.to_N b) 16)) (hex r))
  end.

(** [TraceID.String]. *)
Definition TraceID_String (t : TraceID) : string := hex (vec_to_list t).

(** [trace.SpanFromContext(ctx).SpanContext().TraceID()]: a nil
    context and a context without a span give the no-op span, whose
    trace id is the zero one. *)
Definition SpanFromContext_TraceID (ctx : Context) : TraceID :=
  match ctx with
  | Some (mkCtx (Some t)) => t
  | _ => nilTraceID
  end.

End otel.

(** ** The store and the effects of a call *)

(** Addresses of heap objects (logger structs, atomic level cells): the
    index of the allocation. *)
Definition loc := nat.

Module zapcore.

(** [zapcore.Entry], without time, caller and stack. *)
Record Entry := mkEntry {
  Level_ : Level;
  LoggerName : string;
  Message : string
}.

(** [zapcore.Core]: the io core built by [zapcore.NewCore] holds its
    level enabler (here always a [zap.AtomicLevel], that is the
    address of its cell) and the fields accumulated by [With] in its
    encoder; the no-op core of [zap.NewNop] holds nothing. All io cores
    of the package write to the same sink, standard error. *)
Inductive Core :=
| ioCore (enab : loc) (enc : list Field)
| nopCore.

Inductive CheckWriteAction :=
| WriteThenNoop
| WriteThenPanic
| WriteThenFatal.

(** A non-nil [*zapcore.CheckedEntry]. *)
Record CheckedEntry := mkCE {
  ceEntry : Entry;
  should : CheckWriteAction;
  cores : list Core
}.

(** One record as it reaches the sink: the entry, then the fields of
    the core's encoder followed by the fields of the call. *)
Record Written := mkWritten {
  entry : Entry;
  fields : list Field
}.

End zapcore.
Import zapcore.

(** A [zap.Logger] value. Such a struct is never updated after it is
    built ([With] and [Named] clone it), so the pointer to it is modelled
    by the value. *)
Record zapLogger := mkZap {
  core : Core;
  development : bool;
  name : string
}.

(** [Logger] of the package. [level] is a [zap.AtomicLevel], a struct
    around a pointer to the cell: copying it shares the cell. *)
Record Logger := mkLogger {
  base : zapLogger;
  level : loc
}.

Record State := mkState {
  loggers : list Logger;          (* the Logger structs, by address *)
  levels : list Level;            (* the atomic level cells, by address *)
  defaultLogger : option loc;     (* the package variable; None is nil *)
  sink : list Written             (* what the io cores have written *)
}.

(** How a call ends: it returns, it panics, or the process exits. *)
Inductive Res (A : Type) :=
| Normal (a : A)
| Panics (v : string)
| Exits (code : Z).
Arguments Normal {A} _.
Arguments Panics {A} _.
Arguments Exits {A} _.

Definition M (A : Type) : Type := State -> Res A * State.

#[global] Instance M_ret : MRet M := fun A a s => (Normal a, s).

#[global] Instance M_bind : MBind M := fun A B f m s =>
  match m s with
  | (Normal a, s') => f a s'
  | (Panics v, s') => (Panics v, s')
  | (Exits c, s') => (Exits c, s')
  end.

Definition panic {A} (v : string) : M A := fun s => (Panics v, s).
Definition exit {A} (code : Z) : M A := fun s => (Exits code, s).

Definition nilDeref : string :=
  "runtime error: invalid memory address or nil pointer dereference".
Definition indexOutOfRange : string := "runtime error: index out of range".

Definition deref (l : loc) : M Logger := fun s =>
  match loggers s !! l with
  | Some x => (Normal x, s)
  | None => (Panics nilDeref, s)
  end.

Definition store (l : loc) (x : Logger) : M unit := fun s =>
  (Normal tt, mkState (<[l := x]> (loggers s)) (levels s) (defaultLogger s) (sink s)).

Definition alloc (x : Logger) : M loc := fun s =>
  (Normal (length (loggers s)),
   mkState (loggers s ++ [x]) (levels s) (defaultLogger s) (sink s)).

(** [atomic.LoadPointer] and [atomic.StorePointer] on [defaultLogger]. *)
Definition LoadPointer : M (option loc) := fun s => (Normal (defaultLogger s), s).

Definition StorePointer (p : option loc) : M unit := fun s =>
  (Normal tt, mkState (loggers s) (levels s) p (sink s)).

(** ** The zap logger, as the package uses it *)

Module zaplog.

(** [zap.NewAtomicLevelAt]. *)
Definition NewAtomicLevelAt (lvl : Level) : M loc := fun s =>
  (Normal (length (levels s)),
   mkState (loggers s) (levels s ++ [lvl]) (defaultLogger s) (sink s)).

(** [zap.NewAtomicLevel]: the cell starts at [InfoLevel]. *)
Definition NewAtomicLevel : M loc := NewAtomicLevelAt InfoLevel.

Definition AtomicLevel_Level (c : loc) : M Level := fun s =>
  match levels s !! c with
  | Some v => (Normal v, s)
  | None => (Panics nilDeref, s)
  end.

Definition AtomicLevel_SetLevel (c : loc) (lvl : Level) : M unit := fun s =>
  match levels s !! c with
  | Some _ =>
      (Normal tt,
       mkState (loggers s) (<[c := lvl]> (levels s)) (defaultLogger s) (sink s))
  | None => (Panics nilDeref, s)
  end.

(** [Core.Enabled]: the enabler's level is at most [lvl]. *)
Definition Core_Enabled (c : Core) (lvl : Level) : M bool :=
  match c with
  | ioCore a _ => x ← AtomicLevel_Level a; mret (x <=? lvl)
  | nopCore => mret false
  end.

(** [Core.With]. *)
Definition Core_With (c : Core) (fs : list Field) : Core :=
  match c with
  | ioCore a enc => ioCore a (enc ++ fs)
  | nopCore => nopCore
  end.

(** [Core.Check]: an enabled io core adds itself to the checked
    entry, creating it when it is nil. *)
Definition Core_Check (c : Core) (ent : Entry) (ce : option CheckedEntry)
  : M (option CheckedEntry) :=
  match c with
  | ioCore _ _ =>
      en ← Core_Enabled c (Level_ ent);
      if en : bool then
        mret (Some match ce with
                   | Some x => mkCE (ceEntry x) (should x) (cores x ++ [c])
                   | None => mkCE ent WriteThenNoop [c]
                   end)
      else mret ce
  | nopCore => mret ce
  end.

(** [CheckedEntry.Should] on a possibly nil entry. *)
Definition Should (ce : option CheckedEntry) (ent : Entry)
    (a : CheckWriteAction) : option CheckedEntry :=
  Some match ce with
       | Some x => mkCE (ceEntry x) a (cores x)
       | None => mkCE ent a []
       end.

(** [Core.Write]. *)
Definition Core_Write (c : Core) (ent : Entry) (fs : list Field) : M unit :=
  match c with
  | ioCore _ enc => fun s =>
      (Normal tt,
       mkState (loggers s) (levels s) (defaultLogger s)
               (sink s ++ [mkWritten ent (enc ++ fs)]))
  | nopCore => mret tt
  end.

Fixpoint write_cores (cs : list Core) (ent : Entry) (fs : list Field) : M unit :=
  match cs with
  | [] => mret tt
  | c :: r => _ ← Core_Write c ent fs; write_cores r ent fs
  end.

(** [CheckedEntry.Write]: every core writes, then the terminal
    behaviour of the entry takes place. *)
Definition CheckedEntry_Write (ce : CheckedEntry) (fs : list Field) : M unit :=
  _ ← write_cores (cores ce) (ceEntry ce) fs;
  match should ce with
  | WriteThenNoop => mret tt
  | WriteThenPanic => panic (Message (ceEntry ce))
  | WriteThenFatal => exit 1
  end.

(** [Logger.Check]. The level is tested first, except from
    [DPanicLevel] up; then the core is asked; then the terminal
    behaviour is attached, also to an entry no core will write. *)
Definition Check (log : zapLogger) (lvl : Level) (msg : string)
  : M (option CheckedEntry) :=
  disabled ← (if lvl <? DPanicLevel
              then en ← Core_Enabled (core log) lvl; mret (negb en)
              else mret false);
  if disabled : bool then mret None else
  let ent := mkEntry lvl (name log) msg in
  ce ← Core_Check (core log) ent None;
  mret (if lvl =? PanicLevel then Should ce ent WriteThenPanic
        else if lvl =? FatalLevel then Should ce ent WriteThenFatal
        else if lvl =? DPanicLevel then
               (if development log then Should ce ent WriteThenPanic else ce)
        else ce).

(** [Logger.DPanic]. *)
Definition DPanic (log : zapLogger) (msg : string) (fs : list Field) : M unit :=
  ce ← Check log DPanicLevel msg;
  match ce with
  | Some x => CheckedEntry_Write x fs
  | None => mret tt
  end.

(** [Logger.With]. *)
Definition With (log : zapLogger) (fs : list Field) : zapLogger :=
  match fs with
  | [] => log
  | _ => mkZap (Core_With (core log) fs) (development log) (name log)
  end.

(** [Logger.Named]. *)
Definition Named (log : zapLogger) (s : string) : zapLogger :=
  if String.eqb s "" then log
  else mkZap (core log) (development log)
             (if String.eqb (name log) "" then s
              else String.append (name log) (String.append "." s)).

End zaplog.

(** ** The package *)

Module Log.

(** *** fields.go *)

Definition Any (k : string) (v : Value) : Field := zap.Any k v.

Definition Object (k : string) (val : Value) : Field :=
  mkField k ObjectMarshalerType 0 "" val.

Definition Binary (k : string) (v : list byte) : Field :=
  mkField k BinaryType 0 "" (VBytes v).

Definition Bool (k : string) (v : bool) : Field :=
  let v := if v then 1 else 0 in
  mkField k BoolType v "" VNil.

Definition ByteString (k : string) (val : list byte) : Field :=
  mkField k ByteStringType 0 "" (VBytes val).

Definition Namespace (k : string) : Field :=
  mkField k NamespaceType 0 "" VNil.

Definition Method (v : string) : Field := mkField "method" StringType 0 v VNil.

Definition Action (v : string) : Field := mkField "action" StringType 0 v VNil.

Definition Topic (v : string) : Field := mkField "topic" StringType 0 v VNil.

Definition Partition (v : Z) : Field := mkField "partition" Int64Type v "" VNil.

Definition Offset (v : Z) : Field := mkField "offset" Int64Type v "" VNil.

Definition ProductID (v : Z) : Field :=
  mkField "product_id" Uint64Type (int64_of_uint64 v) "" VNil.


Definition Count (count : Z) : Field := mkField "count" Int64Type count "" VNil.

Definition Query (query : string) : Field := mkField "query" StringType 0 query VNil.

Definition File (fileName : string) : Field :=
  mkField "file" StringType 0 fileName VNil.

Definition NoTraceId : string := "unknown".

Definition TraceId (ctx : Context) : Field :=
  let t := otel.SpanFromContext_TraceID ctx in
  if otel.IsValid t
  then mkField "traceId" StringType 0 (otel.TraceID_String t) VNil
  else mkField "traceId" StringType 0 NoTraceId VNil.

(** *** The logger *)

Definition danglingKeyErrMsg : string := "Ignored key without a value.".
Definition nonStringKeyErrMsg : string :=
  "Ignored key-value pairs with non-string keys.".

Definition NewLogger : M loc :=
  lv ← zaplog.NewAtomicLevelAt InfoLevel;
  alloc (mkLogger (mkZap (ioCore lv []) false "") lv).

(** As [NewLogger], at [DebugLevel] and with [zap.Development()]. *)
Definition NewDevelopmentLogger : M loc :=
  lv ← zaplog.NewAtomicLevelAt DebugLevel;
  alloc (mkLogger (mkZap (ioCore lv []) true "") lv).

Definition NewNopLogger : M loc :=
  lv ← zaplog.NewAtomicLevel;
  alloc (mkLogger (mkZap nopCore false "") lv).

(** [L]: the pointer loaded from the slot may be nil ([None]). *)
Definition L : M (option loc) :=
  l ← LoadPointer;
  match l with
  | None =>
      l ← NewLogger;
      _ ← StorePointer (Some l);
      mret (Some l)
  | Some _ => mret l
  end.

(** development.go: [init] under the [development] build tag. *)
Definition init_development : M unit :=
  l ← NewDevelopmentLogger;
  StorePointer (Some l).

(** [With] assigns to the [base] member of the receiver and returns
    the receiver. *)
Definition With (l : loc) (fs : list Field) : M loc :=
  x ← deref l;
  _ ← store l (mkLogger (zaplog.With (base x) fs) (level x));
  mret l.

Definition Logger_Level (l : loc) : M Level :=
  x ← deref l; zaplog.AtomicLevel_Level (level x).

Definition SetLevel (l : loc) (lvl : Level) : M unit :=
  x ← deref l; zaplog.AtomicLevel_SetLevel (level x) lvl.

(** [Named] copies the struct, sets [base] in the copy and returns
    the address of the copy. *)
Definition Named (l : loc) (nm : string) : M loc :=
  if String.eqb nm "" then mret l
  else
    c ← deref l;
    alloc (mkLogger (zaplog.Named (base c) nm) (level c)).

(** The [for] loop of [logw], at index [i] with the accumulated
    [fields] and [invalids]. Every turn moves [i] forward, so
    [length kv] turns are enough: [fuel] counts them. ([invalids] is
    allocated lazily in the source; that is not visible here.) *)
Fixpoint logw_loop (b : zapLogger) (kv : list Value) (fuel : nat) (i : nat)
    (fields : list Field) (invalids : invalidPairs) {struct fuel}
  : M (list Field * invalidPairs) :=
  let n := length kv in
  let m := (n - 1)%nat in
  match fuel with
  | O => mret (fields, invalids)
  | S fuel =>
      if negb (i <? n)%nat then mret (fields, invalids)
      else
        match kv !! i with
        | None => panic indexOutOfRange
        | Some (VField f) =>
            logw_loop b kv fuel (i + 1)%nat (fields ++ [f]) invalids
        | Some (VContext ctx) =>
            let i := (i + 1)%nat in
            let f := TraceId (Some ctx) in
            let fields :=
              if negb (String.eqb (String_ f) NoTraceId)
              then fields ++ [TraceId (Some ctx)]
              else fields in
            logw_loop b kv fuel i fields invalids
        | Some k =>
            if (i =? m)%nat then
              _ ← zaplog.DPanic b danglingKeyErrMsg [zap.Any "ignored" k];
              mret (fields, invalids)
            else
              match kv !! (i + 1)%nat with
              | None => panic indexOutOfRange
              | Some v =>
                  match k with
                  | VString s =>
                      logw_loop b kv fuel (i + 2)%nat
                                (fields ++ [zap.Any s v]) invalids
                  | _ =>
                      logw_loop b kv fuel (i + 2)%nat fields
                                (invalids ++ [mkInvalidPair (Z.of_nat i) k v])
                  end
              end
        end
  end.

(** [logw]. The receiver's [base] is read once: nothing assigns to it
    while the call runs. *)
Definition logw (l : loc) (lvl : Level) (msg : string) (kv : list Value)
  : M unit :=
  x ← deref l;
  disabled ← (if lvl <? DPanicLevel
              then en ← zaplog.Core_Enabled (core (base x)) lvl; mret (negb en)
              else mret false);
  if disabled : bool then mret tt
  else
    ce ← zaplog.Check (base x) lvl msg;
    match ce with
    | None => mret tt
    | Some ce =>
        let n := length kv in
        if (0 <? n)%nat then
          '(fields, invalids) ← logw_loop (base x) kv n 0 [] [];
          _ ← (if (0 <? length invalids)%nat
               then zaplog.DPanic (base x) nonStringKeyErrMsg
                      [zap.Array "invalid" (VInvalidPairs invalids)]
               else mret tt);
          zaplog.CheckedEntry_Write ce fields
        else zaplog.CheckedEntry_Write ce []
    end.

(** [invalidPair.MarshalLogObject], as the fields added to the
    encoder, and [invalidPairs.MarshalLogArray]. *)
Definition MarshalLogObject (p : invalidPair) : list Field :=
  [zap.Int64 "position" (position p); zap.Any "key" (key p);
   zap.Any "value" (value p)].

Definition MarshalLogArray (ps : invalidPairs) : list (list Field) :=
  map MarshalLogObject ps.

(** The methods taking a context. *)
Definition Debug (l : loc) (ctx : Context) (msg : string) (kv : list Value) : M unit :=
  let kv := kv ++ [VField (TraceId ctx)] in logw l DebugLevel msg kv.
Definition Info (l : loc) (ctx : Context) (msg : string) (kv : list Value) : M unit :=
  let kv := kv ++ [VField (TraceId ctx)] in logw l InfoLevel msg kv.
Definition Warn (l : loc) (ctx : Context) (msg : string) (kv : list Value) : M unit :=
  let kv := kv ++ [VField (TraceId ctx)] in logw l WarnLevel msg kv.
Definition Logger_Error (l : loc) (ctx : Context) (msg : string) (kv : list Value) : M unit :=
  let kv := kv ++ [VField (TraceId ctx)] in logw l ErrorLevel msg kv.
Definition DPanic (l : loc) (ctx : Context) (msg : string) (kv : list Value) : M unit :=
  let kv := kv ++ [VField (TraceId ctx)] in logw l DPanicLevel msg kv.
Definition Panic (l : loc) (ctx : Context) (msg : string) (kv : list Value) : M unit :=
  let kv := kv ++ [VField (TraceId ctx)] in logw l PanicLevel msg kv.
Definition Fatal (l : loc) (ctx : Context) (msg : string) (kv : list Value) : M unit :=
  let kv := kv ++ [VField (TraceId ctx)] in logw l FatalLevel msg kv.

(** The methods without a context. *)
Definition Debugw (l : loc) (msg : string) (kv : list Value) : M unit :=
  logw l DebugLevel msg kv.
Definition Infow (l : loc) (msg : string) (kv : list Value) : M unit :=
  logw l InfoLevel msg kv.
Definition Warnw (l : loc) (msg : string) (kv : list Value) : M unit :=
  logw l WarnLevel msg kv.
Definition Errorw (l : loc) (msg : string) (kv : list Value) : M unit :=
  logw l ErrorLevel msg kv.
Definition DPanicw (l : loc) (msg : string) (kv : list Value) : M unit :=
  logw l InfoLevel msg kv.
Definition Panicw (l : loc) (msg : string) (kv : list Value) : M unit :=
  logw l PanicLevel msg kv.
Definition Fatalw (l : loc) (msg : string) (kv : list Value) : M unit :=
  logw l FatalLevel msg kv.

End Log.

(** ** The argument list read slot by slot *)

Module Normalizer.

(** The three shapes an argument list is made of, and the lone key a
    list can end in. A pair remembers the index of its key. *)
Inductive Slot :=
| SField (f : Field)
| SContext (c : ctxImpl)
| SPair (pos : nat) (k v : Value)
| SDangling (k : Value).

(** The slots of [kv], whose head stands at index [i]: a field or a
    context takes one element, anything else is a key and takes the
    next element as its value; a key that is the last element is
    dangling. *)
Fixpoint slots (i : nat) (kv : list Value) : list Slot :=
  match kv with
  | [] => []
  | VField f :: r => SField f :: slots (S i) r
  | VContext c :: r => SContext c :: slots (S i) r
  | k :: r =>
      match r with
      | [] => [SDangling k]
      | v :: r' => SPair i k v :: slots (S (S i)) r'
      end
  end.

(** The field a slot contributes to the record. *)
Definition slot_field (sl : Slot) : list Field :=
  match sl with
  | SField f => [f]
  | SContext c =>
      if negb (String.eqb (String_ (Log.TraceId (Some c))) Log.NoTraceId)
      then [Log.TraceId (Some c)] else []
  | SPair _ (VString s) v => [zap.Any s v]
  | SPair _ _ _ => []
  | SDangling _ => []
  end.

(** The invalid pair a slot contributes to the diagnostic. *)
Definition slot_invalid (sl : Slot) : list invalidPair :=
  match sl with
  | SPair _ (VString _) _ => []
  | SPair i k v => [mkInvalidPair (Z.of_nat i) k v]
  | _ => []
  end.

Definition slot_fields (sls : list Slot) : list Field :=
  concat (map slot_field sls).

Definition slot_invalids (sls : list Slot) : invalidPairs :=
  concat (map slot_invalid sls).

Fixpoint dangling (sls : list Slot) : option Value :=
  match sls with
  | [] => None
  | SDangling k :: _ => Some k
  | _ :: r => dangling r
  end.

Definition has_dangling (sls : list Slot) : bool :=
  match dangling sls with
  | Some _ => true
  | None => false
  end.

(** A value that the loop treats as a key. *)
Definition bare (v : Value) : bool :=
  match v with
  | VField _ | VContext _ => false
  | _ => true
  end.

Definition is_string (v : Value) : bool :=
  match v with
  | VString _ => true
  | _ => false
  end.

End Normalizer.
Import Normalizer.

(** ** What the sink receives *)

Definition emit (s : State) (ws : list Written) : State :=
  mkState (loggers s) (levels s) (defaultLogger s) (sink s ++ ws).

(** How a call at [lvl] ends once its entry has been written. *)
Definition terminal (lvl : Level) (msg : string) : Res unit :=
  if lvl =? PanicLevel then Panics msg
  else if lvl =? FatalLevel then Exits 1
  else Normal tt.

(** The two diagnostics of [logw], as an io core with encoder fields
    [enc] and name [nm] writes them. *)
Definition danglingDiag (nm : string) (enc : list Field) (k : Value) : Written :=
  mkWritten (mkEntry DPanicLevel nm Log.danglingKeyErrMsg)
            (enc ++ [zap.Any "ignored" k]).

Definition invalidDiag (nm : string) (enc : list Field) (ps : invalidPairs) : Written :=
  mkWritten (mkEntry DPanicLevel nm Log.nonStringKeyErrMsg)
            (enc ++ [zap.Array "invalid" (VInvalidPairs ps)]).

(** The outcome of the loop in terms of the slots: one [DPanic] call
    when the list ends in a dangling key, then the fields and the
    invalid pairs in the order of the slots. *)
Definition loop_result (b : zapLogger) (sls : list Slot)
    (fields : list Field) (invalids : invalidPairs)
  : M (list Field * invalidPairs) :=
  match dangling sls with
  | Some k =>
      _ ← zaplog.DPanic b Log.danglingKeyErrMsg [zap.Any "ignored" k];
      mret (fields ++ slot_fields sls, invalids ++ slot_invalids sls)
  | None => mret (fields ++ slot_fields sls, invalids ++ slot_invalids sls)
  end.

(** ** The loop of [logw] computes the slots *)

Section Loop.

Variable b : zapLogger.

Lemma loop_result_cons_field f sls fields invalids s :
  loop_result b (SField f :: sls) fields invalids s
  = loop_result b sls (fields ++ [f]) invalids s.
Proof.
  unfold loop_result, slot_fields, slot_invalids. simpl.
  rewrite <- !app_assoc. simpl. reflexivity.
Qed.

Lemma loop_result_cons_ctx c sls fields invalids s :
  loop_result b (SContext c :: sls) fields invalids s
  = loop_result b sls (fields ++ slot_field (SContext c)) invalids s.
Proof.
  unfold loop_result, slot_fields, slot_invalids.
  cbn [map concat dangling slot_invalid app].
  rewrite <- !app_assoc. reflexivity.
Qed.

Lemma loop_result_cons_pair i k v sls fields invalids s :
  loop_result b (SPair i k v :: sls) fields invalids s
  = loop_result b sls (fields ++ slot_field (SPair i k v))
                (invalids ++ slot_invalid (SPair i k v)) s.
Proof.
  unfold loop_result, slot_fields, slot_invalids.
  cbn [map concat dangling].
  rewrite <- !app_assoc. reflexivity.
Qed.

Lemma loop_result_dangling k fields invalids s :
  loop_result b [SDangling k] fields invalids s
  = (_ ← zaplog.DPanic b Log.danglingKeyErrMsg [zap.Any "ignored" k];
     mret (fields, invalids)) s.
Proof.
  unfold loop_result, slot_fields, slot_invalids. simpl.
  rewrite !app_nil_r. reflexivity.
Qed.

Lemma lookup_middle_here {A} (pre : list A) x r :
  (pre ++ x :: r) !! length pre = Some x.
Proof. apply list_lookup_middle. reflexivity. Qed.

Lemma lookup_middle_next {A} (pre : list A) x y r :
  (pre ++ x :: y :: r) !! (length pre + 1)%nat = Some y.
Proof.
  replace (pre ++ x :: y :: r) with ((pre ++ [x]) ++ y :: r)
    by (rewrite <- app_assoc; reflexivity).
  apply list_lookup_middle. rewrite length_app. simpl. lia.
Qed.

Lemma logw_loop_slots fuel : forall pre suf fields invalids s,
  (length suf <= fuel)%nat ->
  Log.logw_loop b (pre ++ suf) fuel (length pre) fields invalids s
  = loop_result b (slots (length pre) suf) fields invalids s.
Proof.
  induction fuel as [|fuel IH]; intros pre suf fields invalids s Hlen.
  - destruct suf; [|simpl in Hlen; lia].
    unfold loop_result, slot_fields, slot_invalids. simpl.
    rewrite !app_nil_r. reflexivity.
  - destruct suf as [|x r].
    + unfold loop_result, slot_fields, slot_invalids. simpl.
      rewrite !app_nil_r.
      replace (length pre <? length pre)%nat with false
        by (symmetry; apply Nat.ltb_ge; lia).
      reflexivity.
    + simpl in Hlen.
      assert (Hlt : (length pre <? length (pre ++ x :: r))%nat = true).
      { apply Nat.ltb_lt. rewrite length_app. simpl. lia. }
      assert (Hstep1 : forall fs ivs,
        Log.logw_loop b (pre ++ x :: r) fuel (length pre + 1) fs ivs s
        = loop_result b (slots (S (length pre)) r) fs ivs s).
      { intros fs ivs.
        replace (pre ++ x :: r) with ((pre ++ [x]) ++ r)
          by (rewrite <- app_assoc; reflexivity).
        replace (length pre + 1)%nat with (length (pre ++ [x]))
          by (rewrite length_app; reflexivity).
        rewrite IH by lia. rewrite length_app. simpl.
        replace (length pre + 1)%nat with (S (length pre)) by lia.
        reflexivity. }
      assert (Hkey : bare x = true ->
        Log.logw_loop b (pre ++ x :: r) (S fuel) (length pre) fields invalids s
        = loop_result b (slots (length pre) (x :: r)) fields invalids s).
      { intros Hbare.
        assert (Hm : (length pre =? length (pre ++ x :: r) - 1)%nat
                     = match r with [] => true | _ => false end).
        { rewrite length_app. destruct r; simpl.
          - apply Nat.eqb_eq. lia.
          - apply Nat.eqb_neq. lia. }
        destruct r as [|v r'].
        - destruct x; try discriminate Hbare;
            cbn [Log.logw_loop]; rewrite Hlt, lookup_middle_here;
            cbn [negb]; rewrite Hm; cbn [slots];
            rewrite loop_result_dangling; reflexivity.
        - assert (Hstep2 : forall fs ivs,
            Log.logw_loop b (pre ++ x :: v :: r') fuel (length pre + 2) fs ivs s
            = loop_result b (slots (S (S (length pre))) r') fs ivs s).
          { intros fs ivs.
            replace (pre ++ x :: v :: r') with ((pre ++ [x; v]) ++ r')
              by (rewrite <- app_assoc; reflexivity).
            replace (length pre + 2)%nat with (length (pre ++ [x; v]))
              by (rewrite length_app; reflexivity).
            simpl in Hlen.
            rewrite IH by lia. rewrite length_app. simpl.
            replace (length pre + 2)%nat with (S (S (length pre))) by lia.
            reflexivity. }
          destruct x; try discriminate Hbare;
            cbn [Log.logw_loop]; rewrite Hlt, lookup_middle_here;
            cbn [negb]; rewrite Hm, lookup_middle_next, Hstep2;
            cbn [slots]; rewrite loop_result_cons_pair;
            cbn [slot_field slot_invalid]; rewrite ?app_nil_r; reflexivity. }
      destruct x; try (apply Hkey; reflexivity).
      * cbn [Log.logw_loop]. rewrite Hlt, lookup_middle_here. cbn [negb].
        rewrite Hstep1. cbn [slots]. rewrite loop_result_cons_ctx.
        cbn [slot_field].
        destruct (negb (String_ (Log.TraceId (Some c)) =? Log.NoTraceId)%string);
          rewrite ?app_nil_r; reflexivity.
      * cbn [Log.logw_loop]. rewrite Hlt, lookup_middle_here. cbn [negb].
        rewrite Hstep1. cbn [slots]. rewrite loop_result_cons_field.
        reflexivity.
Qed.

(** [length kv] turns are enough: more fuel changes nothing. *)
Lemma logw_loop_fuel kv fuel s :
  (length kv <= fuel)%nat ->
  Log.logw_loop b kv fuel 0 [] [] s
  = Log.logw_loop b kv (length kv) 0 [] [] s.
Proof.
  intros H.
  transitivity (loop_result b (slots 0 kv) [] [] s).
  - apply (logw_loop_slots fuel [] kv [] [] s H).
  - symmetry. apply (logw_loop_slots (length kv) [] kv [] [] s). lia.
Qed.

(** The loop as [logw] starts it. *)
Lemma logw_loop_start kv s :
  Log.logw_loop b kv (length kv) 0 [] [] s
  = loop_result b (slots 0 kv) [] [] s.
Proof. apply (logw_loop_slots (length kv) [] kv [] [] s). lia. Qed.

End Loop.

(** ** Running the monad *)

Lemma bind_normal {A B} (m : M A) (f : A -> M B) s a s' :
  m s = (Normal a, s') -> (x ← m; f x) s = f a s'.
Proof. intros H. unfold mbind, M_bind. rewrite H. reflexivity. Qed.

Lemma bind_panics {A B} (m : M A) (f : A -> M B) s v s' :
  m s = (Panics v, s') -> (x ← m; f x) s = (Panics v, s').
Proof. intros H. unfold mbind, M_bind. rewrite H. reflexivity. Qed.

Lemma bind_exits {A B} (m : M A) (f : A -> M B) s c s' :
  m s = (Exits c, s') -> (x ← m; f x) s = (Exits c, s').
Proof. intros H. unfold mbind, M_bind. rewrite H. reflexivity. Qed.

Lemma emit_nil s : emit s [] = s.
Proof. destruct s. unfold emit. simpl. rewrite app_nil_r. reflexivity. Qed.

Lemma emit_emit s ws1 ws2 : emit (emit s ws1) ws2 = emit s (ws1 ++ ws2).
Proof. unfold emit. simpl. rewrite app_assoc. reflexivity. Qed.

Lemma deref_ok s l x : loggers s !! l = Some x -> deref l s = (Normal x, s).
Proof. intros H. unfold deref. rewrite H. reflexivity. Qed.

(** ** The zap logger over an io core *)

(** What [Core.Write] appends to the sink. *)
Definition core_writes (ent : Entry) (fs : list Field) (c : Core) : list Written :=
  match c with
  | ioCore _ enc => [mkWritten ent (enc ++ fs)]
  | nopCore => []
  end.

(** The end of [CheckedEntry.Write]. *)
Definition after_write (ce : CheckedEntry) : Res unit :=
  match should ce with
  | WriteThenNoop => Normal tt
  | WriteThenPanic => Panics (Message (ceEntry ce))
  | WriteThenFatal => Exits 1
  end.

Lemma write_cores_emit cs ent fs : forall s,
  zaplog.write_cores cs ent fs s
  = (Normal tt, emit s (concat (map (core_writes ent fs) cs))).
Proof.
  induction cs as [|c r IH]; intros s; simpl.
  - unfold mret, M_ret. rewrite emit_nil. reflexivity.
  - erewrite bind_normal.
    + rewrite IH, emit_emit. reflexivity.
    + destruct c; simpl.
      * reflexivity.
      * unfold mret, M_ret. rewrite emit_nil. reflexivity.
Qed.

Lemma CheckedEntry_Write_emit ce fs s :
  zaplog.CheckedEntry_Write ce fs s
  = (after_write ce,
     emit s (concat (map (core_writes (ceEntry ce) fs) (cores ce)))).
Proof.
  unfold zaplog.CheckedEntry_Write.
  erewrite bind_normal by apply write_cores_emit.
  unfold after_write. destruct (should ce); reflexivity.
Qed.

Section IoCore.

(** An io core whose enabler cell [a] holds [X]. *)
Variables (a : loc) (enc : list Field) (d : bool) (nm : string) (X : Level).

Let b : zapLogger := mkZap (ioCore a enc) d nm.

(** The checked entry that [Logger.Check] returns. *)
Definition checked (lvl : Level) (msg : string) : option CheckedEntry :=
  if (lvl <? DPanicLevel) && negb (X <=? lvl) then None
  else
    let ent := mkEntry lvl nm msg in
    let ce := if X <=? lvl
              then Some (mkCE ent WriteThenNoop [ioCore a enc]) else None in
    if lvl =? PanicLevel then zaplog.Should ce ent WriteThenPanic
    else if lvl =? FatalLevel then zaplog.Should ce ent WriteThenFatal
    else if lvl =? DPanicLevel then
           (if d then zaplog.Should ce ent WriteThenPanic else ce)
    else ce.

Lemma Enabled_io s lvl :
  levels s !! a = Some X ->
  zaplog.Core_Enabled (ioCore a enc) lvl s = (Normal (X <=? lvl), s).
Proof.
  intros H. unfold zaplog.Core_Enabled.
  erewrite bind_normal.
  - reflexivity.
  - unfold zaplog.AtomicLevel_Level. rewrite H. reflexivity.
Qed.

Lemma gate_io s lvl :
  levels s !! a = Some X ->
  (if lvl <? DPanicLevel
   then en ← zaplog.Core_Enabled (ioCore a enc) lvl; mret (negb en)
   else mret false) s
  = (Normal ((lvl <? DPanicLevel) && negb (X <=? lvl)), s).
Proof.
  intros H. destruct (lvl <? DPanicLevel); simpl.
  - erewrite bind_normal by (apply Enabled_io; exact H). reflexivity.
  - reflexivity.
Qed.

Lemma Core_Check_io s ent :
  levels s !! a = Some X ->
  zaplog.Core_Check (ioCore a enc) ent None s
  = (Normal (if X <=? Level_ ent
             then Some (mkCE ent WriteThenNoop [ioCore a enc]) else None), s).
Proof.
  intros H. unfold zaplog.Core_Check.
  erewrite bind_normal by (apply Enabled_io; exact H).
  destruct (X <=? Level_ ent); reflexivity.
Qed.

Lemma Check_io s lvl msg :
  levels s !! a = Some X ->
  zaplog.Check b lvl msg s = (Normal (checked lvl msg), s).
Proof.
  intros H. unfold zaplog.Check, checked. subst b. cbn [core name development].
  erewrite bind_normal by (apply gate_io; exact H).
  destruct ((lvl <? DPanicLevel) && negb (X <=? lvl)); [reflexivity|].
  erewrite bind_normal by (apply Core_Check_io; exact H).
  reflexivity.
Qed.

(** [Logger.DPanic] on this logger: the record is written when the
    cell admits [DPanicLevel]; in development the call then panics. *)
Lemma DPanic_io s msg fs :
  levels s !! a = Some X ->
  zaplog.DPanic b msg fs s
  = (if d then Panics msg else Normal tt,
     emit s (if X <=? DPanicLevel
             then [mkWritten (mkEntry DPanicLevel nm msg) (enc ++ fs)]
             else [])).
Proof.
  intros H. unfold zaplog.DPanic.
  erewrite bind_normal by (apply Check_io; exact H).
  unfold checked. cbn.
  destruct (X <=? DPanicLevel), d; cbn;
    rewrite ?CheckedEntry_Write_emit; cbn;
    unfold mret, M_ret; rewrite ?emit_nil; reflexivity.
Qed.

End IoCore.

(** ** [logw] on a logger over an io core *)

Section IoLogger.

Variables (a : loc) (enc : list Field) (d : bool) (nm : string) (X : Level).

(** The dangling-key diagnostic, as far as it reaches the sink. *)
Definition danglingWrites (sls : list Slot) : list Written :=
  match dangling sls with
  | Some k => if X <=? DPanicLevel then [danglingDiag nm enc k] else []
  | None => []
  end.

(** The non-string-key diagnostic, as far as it reaches the sink. *)
Definition invalidWrites (sls : list Slot) : list Written :=
  if (0 <? length (slot_invalids sls))%nat
  then (if X <=? DPanicLevel then [invalidDiag nm enc (slot_invalids sls)] else [])
  else [].

(** How a call of [logw] ends and what it appends to the sink. In
    development a diagnostic panics, and what follows it in the
    source does not run. *)
Definition logw_io (lvl : Level) (msg : string) (kv : list Value)
  : Res unit * list Written :=
  match checked a enc d nm X lvl msg with
  | None => (Normal tt, [])
  | Some ce =>
      let sls := slots 0 kv in
      if d && has_dangling sls
      then (Panics Log.danglingKeyErrMsg, danglingWrites sls)
      else if d && (0 <? length (slot_invalids sls))%nat
      then (Panics Log.nonStringKeyErrMsg, danglingWrites sls ++ invalidWrites sls)
      else (after_write ce,
            danglingWrites sls ++ invalidWrites sls
            ++ concat (map (core_writes (ceEntry ce) (slot_fields sls)) (cores ce)))
  end.

Variables (s : State) (l : loc) (x : Logger).
Hypothesis Hl : loggers s !! l = Some x.
Hypothesis Hbase : base x = mkZap (ioCore a enc) d nm.
Hypothesis HX : levels s !! a = Some X.

Lemma loop_io kv ws :
  Log.logw_loop (base x) kv (length kv) 0 [] [] (emit s ws)
  = (if d && has_dangling (slots 0 kv)
     then Panics Log.danglingKeyErrMsg
     else Normal (slot_fields (slots 0 kv), slot_invalids (slots 0 kv)),
     emit s (ws ++ danglingWrites (slots 0 kv))).
Proof.
  rewrite logw_loop_start, Hbase.
  unfold loop_result, danglingWrites, has_dangling.
  destruct (dangling (slots 0 kv)) as [k|].
  - destruct d; cbn [andb].
    + erewrite bind_panics; [reflexivity|].
      rewrite (DPanic_io a enc true nm X) by exact HX.
      rewrite emit_emit. reflexivity.
    + erewrite bind_normal.
      2:{ rewrite (DPanic_io a enc false nm X) by exact HX. reflexivity. }
      rewrite emit_emit. reflexivity.
  - rewrite andb_false_r, app_nil_r. reflexivity.
Qed.

Theorem logw_io_spec lvl msg kv :
  Log.logw l lvl msg kv s
  = (fst (logw_io lvl msg kv), emit s (snd (logw_io lvl msg kv))).
Proof.
  unfold Log.logw.
  erewrite bind_normal by (apply deref_ok; exact Hl).
  rewrite Hbase. cbn [core].
  erewrite bind_normal by (apply gate_io; exact HX).
  unfold logw_io.
  destruct ((lvl <? DPanicLevel) && negb (X <=? lvl)) eqn:Hgate.
  { unfold checked. rewrite Hgate. cbn. unfold mret, M_ret.
    rewrite emit_nil. reflexivity. }
  erewrite bind_normal by (apply Check_io; exact HX).
  destruct (checked a enc d nm X lvl msg) as [ce|].
  2:{ cbn. unfold mret, M_ret. rewrite emit_nil. reflexivity. }
  destruct kv as [|v0 kv'].
  { cbn -[after_write]. rewrite andb_false_r.
    rewrite CheckedEntry_Write_emit. reflexivity. }
  set (kv := v0 :: kv').
  replace (0 <? length kv)%nat with true by reflexivity.
  cbv zeta.
  pose proof (loop_io kv []) as Hloop. rewrite emit_nil in Hloop.
  rewrite <- Hbase.
  destruct (d && has_dangling (slots 0 kv)).
  { erewrite bind_panics by exact Hloop. reflexivity. }
  erewrite bind_normal by exact Hloop. cbn [app]. cbv beta iota.
  rewrite Hbase. unfold invalidWrites.
  destruct (slot_invalids (slots 0 kv)) as [|p ps]; cbn [length Nat.ltb Nat.leb].
  - rewrite andb_false_r.
    erewrite bind_normal by reflexivity.
    rewrite CheckedEntry_Write_emit, emit_emit. reflexivity.
  - destruct d; cbn [andb].
    + erewrite bind_panics; [reflexivity|].
      rewrite (DPanic_io a enc true nm X) by exact HX.
      rewrite emit_emit. reflexivity.
    + erewrite bind_normal.
      2:{ rewrite (DPanic_io a enc false nm X) by exact HX.
          rewrite emit_emit. reflexivity. }
      rewrite CheckedEntry_Write_emit, emit_emit, <- app_assoc. reflexivity.
Qed.

End IoLogger.

(** ** What [logw] writes, by level *)

(** The record of the call itself, as the io core writes it. *)
Definition record (nm : string) (enc : list Field) (lvl : Level) (msg : string)
    (kv : list Value) : Written :=
  mkWritten (mkEntry lvl nm msg) (enc ++ slot_fields (slots 0 kv)).

(** The end of a call at [lvl] on a logger with development flag [d]. *)
Definition terminal_in (d : bool) (lvl : Level) (msg : string) : Res unit :=
  if lvl =? PanicLevel then Panics msg
  else if lvl =? FatalLevel then Exits 1
  else if (lvl =? DPanicLevel) && d then Panics msg
  else Normal tt.

Section Levels.

Variables (a : loc) (enc : list Field) (d : bool) (nm : string) (X : Level).

Lemma checked_admitted lvl msg :
  X <= lvl ->
  checked a enc d nm X lvl msg
  = Some (mkCE (mkEntry lvl nm msg)
               (if lvl =? PanicLevel then WriteThenPanic
                else if lvl =? FatalLevel then WriteThenFatal
                else if (lvl =? DPanicLevel) && d then WriteThenPanic
                else WriteThenNoop)
               [ioCore a enc]).
Proof.
  intros H. unfold checked.
  replace (X <=? lvl) with true by (symmetry; apply Z.leb_le; exact H).
  rewrite andb_false_r.
  destruct (lvl =? PanicLevel); [reflexivity|].
  destruct (lvl =? FatalLevel); [reflexivity|].
  destruct (lvl =? DPanicLevel); [|reflexivity].
  destruct d; reflexivity.
Qed.

Lemma checked_below lvl msg :
  lvl < X ->
  match checked a enc d nm X lvl msg with
  | Some ce => cores ce = [] /\ DPanicLevel <= lvl
  | None => True
  end.
Proof.
  intros H. unfold checked.
  replace (X <=? lvl) with false by (symmetry; apply Z.leb_gt; exact H).
  destruct (Z.ltb_spec lvl DPanicLevel) as [Hlt|Hge]; cbn [andb negb]; [exact I|].
  destruct (lvl =? PanicLevel); [split; [reflexivity|exact Hge]|].
  destruct (lvl =? FatalLevel); [split; [reflexivity|exact Hge]|].
  destruct (lvl =? DPanicLevel); [|exact I].
  destruct d; [split; [reflexivity|exact Hge]|exact I].
Qed.

Lemma diag_writes_closed sls :
  DPanicLevel < X -> danglingWrites enc nm X sls = [] /\ invalidWrites enc nm X sls = [].
Proof.
  intros H. unfold danglingWrites, invalidWrites.
  replace (X <=? DPanicLevel) with false by (symmetry; apply Z.leb_gt; exact H).
  split.
  - destruct (dangling sls); reflexivity.
  - destruct (0 <? length (slot_invalids sls))%nat; reflexivity.
Qed.

(** Below the level of the cell nothing reaches the sink, whatever
    the development flag and the arguments. *)
Lemma logw_io_below lvl msg kv :
  lvl < X -> snd (logw_io a enc d nm X lvl msg kv) = [].
Proof.
  intros H. unfold logw_io.
  pose proof (checked_below lvl msg H) as Hc.
  destruct (checked a enc d nm X lvl msg) as [ce|]; [|reflexivity].
  destruct Hc as [Hcores Hge].
  destruct (diag_writes_closed (slots 0 kv)) as [Hd Hi]; [lia|].
  rewrite Hd, Hi, Hcores.
  destruct (d && has_dangling (slots 0 kv)); [reflexivity|].
  destruct (d && (0 <? length (slot_invalids (slots 0 kv)))%nat); reflexivity.
Qed.

(** From the level of the cell up, and unless a diagnostic panics
    first, the record is written after the diagnostics. *)
Lemma logw_io_admitted lvl msg kv :
  X <= lvl ->
  d = false \/ (dangling (slots 0 kv) = None /\ slot_invalids (slots 0 kv) = []) ->
  logw_io a enc d nm X lvl msg kv
  = (terminal_in d lvl msg,
     danglingWrites enc nm X (slots 0 kv) ++ invalidWrites enc nm X (slots 0 kv)
     ++ [record nm enc lvl msg kv]).
Proof.
  intros H Hok. unfold logw_io. rewrite checked_admitted by exact H.
  assert (H1 : d && has_dangling (slots 0 kv) = false).
  { destruct Hok as [->|[Hd _]]; [reflexivity|].
    unfold has_dangling. rewrite Hd. apply andb_false_r. }
  assert (H2 : d && (0 <? length (slot_invalids (slots 0 kv)))%nat = false).
  { destruct Hok as [->|[_ Hi]]; [reflexivity|].
    rewrite Hi. apply andb_false_r. }
  rewrite H1, H2. unfold after_write, terminal_in, record.
  cbn [map concat core_writes ceEntry cores should app Message].
  rewrite ?app_nil_r.
  destruct (lvl =? PanicLevel); [reflexivity|].
  destruct (lvl =? FatalLevel); [reflexivity|].
  destruct ((lvl =? DPanicLevel) && d); reflexivity.
Qed.

(** Outside development a call ends as its level says, whatever the
    level of the cell. *)
Lemma logw_io_prod_end lvl msg kv :
  d = false -> fst (logw_io a enc d nm X lvl msg kv) = terminal lvl msg.
Proof.
  intros ->. unfold logw_io, checked, terminal. cbn [andb].
  destruct (Z.ltb_spec lvl DPanicLevel) as [Hlt|Hge]; cbn [andb].
  - replace (lvl =? PanicLevel) with false
      by (symmetry; apply Z.eqb_neq; unfold PanicLevel, DPanicLevel in *; lia).
    replace (lvl =? FatalLevel) with false
      by (symmetry; apply Z.eqb_neq; unfold FatalLevel, DPanicLevel in *; lia).
    replace (lvl =? DPanicLevel) with false
      by (symmetry; apply Z.eqb_neq; lia).
    destruct (X <=? lvl); reflexivity.
  - destruct (lvl =? PanicLevel) eqn:E4;
      [destruct (X <=? lvl); reflexivity|].
    destruct (lvl =? FatalLevel) eqn:E5;
      [destruct (X <=? lvl); reflexivity|].
    destruct (lvl =? DPanicLevel), (X <=? lvl); reflexivity.
Qed.

End Levels.

(** ** Facts about the slots *)

Section Slots.

(** Induction along the scan: one element for a field or a context,
    two for a key and its value. *)
Lemma scan_ind (P : list Value -> Prop) :
  P [] ->
  (forall f r, P r -> P (VField f :: r)) ->
  (forall c r, P r -> P (VContext c :: r)) ->
  (forall k, bare k = true -> P [k]) ->
  (forall k v r, bare k = true -> P r -> P (k :: v :: r)) ->
  forall kv, P kv.
Proof.
  intros Hnil Hf Hc Hd Hp kv.
  assert (H : forall n kv, (length kv <= n)%nat -> P kv).
  { clear kv. induction n as [|n IH]; intros kv Hlen.
    - destruct kv; [exact Hnil | simpl in Hlen; lia].
    - destruct kv as [|x r]; [exact Hnil|]. simpl in Hlen.
      destruct (bare x) eqn:Hb.
      + destruct r as [|v r'].
        * apply Hd. exact Hb.
        * apply Hp; [exact Hb|]. apply IH. simpl in Hlen. lia.
      + destruct x; try discriminate Hb.
        * apply Hc. apply IH. lia.
        * apply Hf. apply IH. lia. }
  apply (H (length kv)). lia.
Qed.

Lemma slots_key i k v r :
  bare k = true -> slots i (k :: v :: r) = SPair i k v :: slots (S (S i)) r.
Proof. destruct k; intros H; try discriminate H; reflexivity. Qed.

Lemma slots_last_key i k : bare k = true -> slots i [k] = [SDangling k].
Proof. destruct k; intros H; try discriminate H; reflexivity. Qed.

Lemma slot_fields_app a b :
  slot_fields (a ++ b) = slot_fields a ++ slot_fields b.
Proof. unfold slot_fields. rewrite map_app, concat_app. reflexivity. Qed.

Lemma slot_invalids_app a b :
  slot_invalids (a ++ b) = slot_invalids a ++ slot_invalids b.
Proof. unfold slot_invalids. rewrite map_app, concat_app. reflexivity. Qed.

Lemma dangling_app a b :
  dangling a = None -> dangling (a ++ b) = dangling b.
Proof.
  induction a as [|x a IH]; [reflexivity|].
  destruct x; simpl; intros H; try (apply IH; exact H). discriminate H.
Qed.

(** A prefix that the scan consumes whole does not disturb what
    follows it. *)
Lemma slots_app pre suf : forall i,
  dangling (slots i pre) = None ->
  slots i (pre ++ suf) = slots i pre ++ slots (i + length pre) suf.
Proof.
  induction pre as [| f r IH | c r IH | k Hk | k v r Hk IH] using scan_ind;
    intros i Hd.
  - simpl. rewrite Nat.add_0_r. reflexivity.
  - simpl in *. rewrite IH by exact Hd.
    replace (S i + length r)%nat with (i + S (length r))%nat by lia.
    reflexivity.
  - simpl in *. rewrite IH by exact Hd.
    replace (S i + length r)%nat with (i + S (length r))%nat by lia.
    reflexivity.
  - rewrite slots_last_key in Hd by exact Hk. discriminate Hd.
  - rewrite slots_key in Hd by exact Hk. simpl in Hd.
    change ((k :: v :: r) ++ suf) with (k :: v :: (r ++ suf)).
    rewrite !slots_key by exact Hk. rewrite IH by exact Hd.
    cbn [app length].
    replace (S (S i) + length r)%nat with (i + S (S (length r)))%nat by lia.
    reflexivity.
Qed.

(** A list ends in a dangling key exactly when it is a prefix that scans
    whole followed by one bare element. *)
Lemma dangling_inv kv : forall i k,
  dangling (slots i kv) = Some k ->
  exists pre, kv = pre ++ [k] /\ dangling (slots i pre) = None /\ bare k = true.
Proof.
  induction kv as [| f r IH | c r IH | k0 Hk | k0 v r Hk IH] using scan_ind;
    intros i k Hd.
  - discriminate Hd.
  - simpl in Hd. destruct (IH _ _ Hd) as (pre & -> & Hp & Hb).
    exists (VField f :: pre). repeat split; assumption.
  - simpl in Hd. destruct (IH _ _ Hd) as (pre & -> & Hp & Hb).
    exists (VContext c :: pre). repeat split; assumption.
  - rewrite slots_last_key in Hd by exact Hk. simpl in Hd.
    injection Hd as <-. exists []. repeat split. exact Hk.
  - rewrite slots_key in Hd by exact Hk. simpl in Hd.
    destruct (IH _ _ Hd) as (pre & -> & Hp & Hb).
    exists (k0 :: v :: pre). repeat split; [|exact Hb].
    rewrite slots_key by exact Hk. simpl. exact Hp.
Qed.

(** A list of fields is a list of field slots. *)
Lemma slots_fields (fs : list Field) : forall i,
  slots i (map VField fs) = map SField fs.
Proof.
  induction fs as [|f r IH]; intros i; [reflexivity|].
  simpl. rewrite IH. reflexivity.
Qed.

Lemma slot_fields_SField (fs : list Field) : slot_fields (map SField fs) = fs.
Proof.
  unfold slot_fields. induction fs as [|f r IH]; [reflexivity|].
  simpl. rewrite IH. reflexivity.
Qed.

Lemma slot_invalids_SField (fs : list Field) : slot_invalids (map SField fs) = [].
Proof.
  unfold slot_invalids. induction fs as [|f r IH]; [reflexivity|].
  simpl. exact IH.
Qed.

Lemma dangling_SField (fs : list Field) : dangling (map SField fs) = None.
Proof. induction fs as [|f r IH]; [reflexivity|]. simpl. exact IH. Qed.

(** Every invalid pair records the index of its key: key and value
    stand at that index and the next, and the key is not a string. *)
Lemma slot_invalids_lookup kv : forall i p,
  In p (slot_invalids (slots i kv)) ->
  exists n : nat,
    position p = Z.of_nat (i + n)
    /\ kv !! n = Some (key p) /\ kv !! S n = Some (value p)
    /\ bare (key p) = true /\ is_string (key p) = false.
Proof.
  induction kv as [| f r IH | c r IH | k Hk | k v r Hk IH] using scan_ind;
    intros i p Hin.
  - destruct Hin.
  - simpl in Hin. destruct (IH _ _ Hin) as (n & Hp & H1 & H2 & H3).
    exists (S n). split; [rewrite Hp; f_equal; lia|]. auto.
  - simpl in Hin. destruct (IH _ _ Hin) as (n & Hp & H1 & H2 & H3).
    exists (S n). split; [rewrite Hp; f_equal; lia|]. auto.
  - rewrite slots_last_key in Hin by exact Hk. destruct Hin.
  - rewrite slots_key in Hin by exact Hk.
    unfold slot_invalids in Hin. cbn [map concat] in Hin.
    apply in_app_or in Hin. destruct Hin as [Hin|Hin].
    + exists 0%nat.
      destruct k; try discriminate Hk; simpl in Hin;
        try (destruct Hin as [<-|[]]; simpl;
             repeat split; try reflexivity; f_equal; lia).
      destruct Hin.
    + destruct (IH _ _ Hin) as (n & Hp & H1 & H2 & H3).
      exists (S (S n)). split; [rewrite Hp; f_equal; lia|]. auto.
Qed.

(** The positions of the invalid pairs grow along the list: they are
    in the order of the scan. *)
Lemma slot_invalids_sorted kv : forall i,
  StronglySorted Z.lt (map position (slot_invalids (slots i kv))).
Proof.
  induction kv as [| f r IH | c r IH | k Hk | k v r Hk IH] using scan_ind;
    intros i.
  - constructor.
  - simpl. apply IH.
  - simpl. apply IH.
  - rewrite slots_last_key by exact Hk. constructor.
  - rewrite slots_key by exact Hk.
    unfold slot_invalids. cbn [map concat].
    fold (slot_invalids (slots (S (S i)) r)).
    destruct k; try discriminate Hk; simpl;
      try (constructor; [apply IH|];
           apply List.Forall_forall; intros pos' Hz;
           apply in_map_iff in Hz; destruct Hz as (p & <- & Hp);
           destruct (slot_invalids_lookup _ _ _ Hp) as (n & -> & _); lia).
    apply IH.
Qed.

End Slots.

(** ** Trace identifiers as strings *)

Lemma hex_length bs : String.length (otel.hex bs) = (2 * length bs)%nat.
Proof.
  induction bs as [|x r IH]; [reflexivity|].
  cbn [otel.hex String.length length]. rewrite IH. lia.
Qed.

Lemma TraceID_String_length t : String.length (otel.TraceID_String t) = 32%nat.
Proof.
  unfold otel.TraceID_String. rewrite hex_length, length_vec_to_list. reflexivity.
Qed.

Lemma TraceID_String_not_unknown t : otel.TraceID_String t <> Log.NoTraceId.
Proof.
  intros H. pose proof (TraceID_String_length t) as Hlen.
  rewrite H in Hlen. discriminate Hlen.
Qed.


(** ** The claims *)

(** States used as concrete inputs: the empty store, a store holding
    one logger of [NewLogger], one holding a logger of
    [NewDevelopmentLogger]. *)
Definition s_empty : State := mkState [] [] None [].
Definition s_prod : State := snd (Log.NewLogger s_empty).
Definition s_dev : State := snd (Log.NewDevelopmentLogger s_empty).

(** C7. [TraceId] is total and always yields a field with key
    "traceId" of string type and a non-empty string: the 32 digit hex
    form of the trace id when the context carries a span with a valid
    (non-zero) one, the sentinel "unknown" when the context is nil,
    carries no span, or carries the zero trace id. *)
Theorem TraceId_always_present (ctx : Context) :
  Key (Log.TraceId ctx) = "traceId"
  /\ Type_ (Log.TraceId ctx) = StringType
  /\ String_ (Log.TraceId ctx) <> ""
  /\ match ctx with
     | Some (mkCtx (Some t)) =>
         if otel.IsValid t
         then String_ (Log.TraceId ctx) = otel.TraceID_String t
              /\ String.length (String_ (Log.TraceId ctx)) = 32%nat
              /\ String_ (Log.TraceId ctx) <> "unknown"
         else String_ (Log.TraceId ctx) = "unknown"
     | _ => String_ (Log.TraceId ctx) = "unknown"
     end.
Proof.
  assert (Hk : Key (Log.TraceId ctx) = "traceId"
               /\ Type_ (Log.TraceId ctx) = StringType).
  { unfold Log.TraceId.
    destruct (otel.IsValid (otel.SpanFromContext_TraceID ctx)); split; reflexivity. }
  destruct Hk as [Hk Ht]. repeat split; try assumption.
  - unfold Log.TraceId.
    destruct (otel.IsValid (otel.SpanFromContext_TraceID ctx)); cbn [String_].
    + intros H.
      pose proof (TraceID_String_length (otel.SpanFromContext_TraceID ctx)) as Hl.
      rewrite H in Hl. discriminate Hl.
    + discriminate.
  - destruct ctx as [[[t|]]|]; try reflexivity.
    unfold Log.TraceId. cbn [otel.SpanFromContext_TraceID].
    destruct (otel.IsValid t); cbn [String_]; [|reflexivity].
    repeat split.
    + apply TraceID_String_length.
    + apply TraceID_String_not_unknown.
Qed.



(** C10. [L] returns a non-nil pointer to an allocated logger and
    leaves that pointer in the slot. With the slot empty the logger is a
    newly allocated one, built as [NewLogger] builds it (io core at
    [InfoLevel], not in development, unnamed), and the loggers that
    existed stay as they were; with the slot full the stored pointer is
    returned and the state is unchanged. *)
Theorem L_never_nil (s : State)
  (Hslot : forall q, defaultLogger s = Some q -> is_Some (loggers s !! q)) :
  exists p s',
    Log.L s = (Normal (Some p), s')
    /\ defaultLogger s' = Some p
    /\ is_Some (loggers s' !! p)
    /\ match defaultLogger s with
       | None =>
           p = length (loggers s)
           /\ loggers s' = loggers s ++
                [mkLogger (mkZap (ioCore (length (levels s)) []) false "")
                          (length (levels s))]
           /\ levels s' = levels s ++ [InfoLevel]
           /\ sink s' = sink s
       | Some q => p = q /\ s' = s
       end.
Proof.
  unfold Log.L, LoadPointer. unfold mbind at 1. unfold M_bind.
  destruct (defaultLogger s) as [q|] eqn:Hq.
  - exists q, s. repeat split; try assumption. apply Hslot. reflexivity.
  - eexists _, _. split; [reflexivity|]. cbn.
    repeat split. rewrite lookup_app_r by lia.
    rewrite Nat.sub_diag. eexists. reflexivity.
Qed.

Lemma L_never_nil_witness :
  exists p s',
    Log.L s_empty = (Normal (Some p), s')
    /\ defaultLogger s' = Some p
    /\ is_Some (loggers s' !! p)
    /\ (p = 0%nat
        /\ loggers s' = [mkLogger (mkZap (ioCore 0%nat []) false "") 0%nat]
        /\ levels s' = [InfoLevel]
        /\ sink s' = []).
Proof.
  apply (L_never_nil s_empty). intros q H. discriminate H.
Defined.

(** A logger at address [l] whose zap logger sits on an io core with
    encoder fields [enc], development flag [d] and name [nm], the cell
    of the core holding [X]. [NewLogger] and [NewDevelopmentLogger]
    build such loggers, [With] and [Named] keep them such. *)
Definition io_logger (s : State) (l : loc) (enc : list Field) (d : bool)
    (nm : string) (X : Level) : Prop :=
  exists x a,
    loggers s !! l = Some x
    /\ base x = mkZap (ioCore a enc) d nm
    /\ levels s !! a = Some X.

Lemma logw_on_io s l enc d nm X lvl msg kv :
  io_logger s l enc d nm X ->
  exists a,
    Log.logw l lvl msg kv s
    = (fst (logw_io a enc d nm X lvl msg kv),
       emit s (snd (logw_io a enc d nm X lvl msg kv))).
Proof.
  intros (x & a & Hl & Hb & HX). exists a.
  apply (logw_io_spec a enc d nm X s l x Hl Hb HX).
Qed.

Lemma terminal_in_false lvl msg : terminal_in false lvl msg = terminal lvl msg.
Proof. unfold terminal_in, terminal. rewrite andb_false_r. reflexivity. Qed.

Lemma io_logger_prod : io_logger s_prod 0%nat [] false "" InfoLevel.
Proof. exists (mkLogger (mkZap (ioCore 0%nat []) false "") 0%nat), 0%nat. repeat split. Qed.

Lemma io_logger_dev : io_logger s_dev 0%nat [] true "" DebugLevel.
Proof. exists (mkLogger (mkZap (ioCore 0%nat []) true "") 0%nat), 0%nat. repeat split. Qed.

(** C9. An argument list made of fields only goes through unchanged:
    the loop returns exactly these fields, in order, with no invalid
    pair and without touching the store (no diagnostic), whatever the
    logger; and an admitted call on an io core writes one record, the
    encoder's fields followed by exactly these fields. *)
Theorem fields_pass_through s l enc d nm X lvl msg (fs : list Field) :
  io_logger s l enc d nm X ->
  X <= lvl ->
  Log.logw l lvl msg (map VField fs) s
  = (terminal_in d lvl msg, emit s [mkWritten (mkEntry lvl nm msg) (enc ++ fs)])
  /\ forall b t,
       Log.logw_loop b (map VField fs) (length (map VField fs)) 0 [] [] t
       = (Normal (fs, []), t).
Proof.
  intros Hio HX. split.
  - destruct (logw_on_io s l enc d nm X lvl msg (map VField fs) Hio) as [a ->].
    rewrite logw_io_admitted; [|exact HX|].
    + unfold danglingWrites, invalidWrites, record.
      rewrite slots_fields, dangling_SField, slot_invalids_SField, slot_fields_SField.
      reflexivity.
    + right. rewrite slots_fields. split.
      * apply dangling_SField.
      * apply slot_invalids_SField.
  - intros b t. rewrite logw_loop_start. unfold loop_result.
    rewrite slots_fields, dangling_SField, slot_invalids_SField, slot_fields_SField.
    reflexivity.
Qed.

Lemma fields_pass_through_witness :
  Log.logw 0%nat WarnLevel "m" (map VField [Log.Method "GET"; Log.Count 3]) s_prod
  = (Normal tt,
     emit s_prod [mkWritten (mkEntry WarnLevel "" "m") [Log.Method "GET"; Log.Count 3]]).
Proof.
  apply (fields_pass_through s_prod 0%nat [] false "" InfoLevel WarnLevel "m"
           [Log.Method "GET"; Log.Count 3] io_logger_prod).
  unfold InfoLevel, WarnLevel. lia.
Defined.

(** C3, as the code has it. On a logger that is not in development and
    whose level admits [DPanicLevel], an admitted call whose argument
    list ends in a lone key [k] after a prefix that scans whole writes,
    in this order: one dangling-key diagnostic at [DPanicLevel] carrying
    [k], the non-string-key diagnostic of the prefix if it has invalid
    pairs, and the original record with exactly the fields of the
    prefix; [k] contributes no field. *)
Theorem dangling_key s l enc nm X lvl msg pre k :
  io_logger s l enc false nm X ->
  X <= lvl ->
  X <= DPanicLevel ->
  dangling (slots 0 pre) = None ->
  bare k = true ->
  Log.logw l lvl msg (pre ++ [k]) s
  = (terminal lvl msg,
     emit s ([danglingDiag nm enc k]
             ++ invalidWrites enc nm X (slots 0 pre)
             ++ [record nm enc lvl msg pre])).
Proof.
  intros Hio HX HD Hpre Hk.
  destruct (logw_on_io s l enc false nm X lvl msg (pre ++ [k]) Hio) as [a ->].
  rewrite logw_io_admitted; [|exact HX|left; reflexivity].
  rewrite terminal_in_false.
  unfold danglingWrites, invalidWrites, record.
  rewrite slots_app by exact Hpre.
  rewrite slots_last_key by exact Hk.
  rewrite dangling_app by exact Hpre.
  rewrite slot_invalids_app, slot_fields_app. cbn [dangling].
  replace (X <=? DPanicLevel) with true by (symmetry; apply Z.leb_le; exact HD).
  unfold slot_invalids at 2, slot_fields at 2. cbn [map concat slot_invalid slot_field].
  rewrite !app_nil_r. reflexivity.
Qed.

Lemma dangling_key_witness :
  Log.logw 0%nat InfoLevel "msg" ([VString "k"; VInt 1] ++ [VString "lone"]) s_prod
  = (Normal tt,
     emit s_prod
       [mkWritten (mkEntry DPanicLevel "" Log.danglingKeyErrMsg)
                  [zap.String "ignored" "lone"];
        mkWritten (mkEntry InfoLevel "" "msg") [zap.Int64 "k" 1]]).
Proof.
  apply (dangling_key s_prod 0%nat [] "" InfoLevel InfoLevel "msg"
           [VString "k"; VInt 1] (VString "lone") io_logger_prod);
    [unfold InfoLevel; lia | unfold InfoLevel, DPanicLevel; lia
    | reflexivity | reflexivity].
Defined.

(** C3, the claim on a development logger: the dangling-key diagnostic
    is written and then panics; the original record, with the field
    parsed before the lone key, never reaches the sink. *)
Lemma dangling_key_development :
  let r := Log.logw 0%nat InfoLevel "msg" [VString "k"; VInt 1; VString "lone"] s_dev in
  fst r = Panics Log.danglingKeyErrMsg
  /\ sink (snd r) = [danglingDiag "" [] (VString "lone")]
  /\ ~ In (mkWritten (mkEntry InfoLevel "" "msg") [zap.Int64 "k" 1]) (sink (snd r)).
Proof.
  cbv zeta. split; [reflexivity|]. split; [reflexivity|].
  intros [H|[]]. discriminate H.
Qed.

(** A pair slot whose key is not a string. *)
Definition bad_pair (sl : Slot) : bool :=
  match sl with
  | SPair _ k _ => negb (is_string k)
  | _ => false
  end.

(** The number of key/value pairs of [kv] whose key is not a string. *)
Definition invalid_count (kv : list Value) : nat :=
  length (List.filter bad_pair (slots 0 kv)).

Lemma slot_invalids_count sls :
  length (slot_invalids sls) = length (List.filter bad_pair sls).
Proof.
  unfold slot_invalids. induction sls as [|sl r IH]; [reflexivity|].
  cbn [map concat List.filter]. rewrite length_app, IH.
  destruct sl as [f|c|i k v|k]; try reflexivity.
  destruct k; reflexivity.
Qed.

(** C4, as the code has it. On a logger that is not in development and
    whose level admits [DPanicLevel], an admitted call writes, after the
    dangling-key diagnostic if there is one, exactly one non-string-key
    diagnostic when the list has such pairs (none when it has none),
    and then the original record with every field parsed from the rest
    of the list. The payload of the diagnostic has one invalid pair per
    pair with a non-string key: their number is [invalid_count kv], each
    records the index of its key in [kv] with the key and the value found
    there, the positions grow along the payload (scan order), and each
    is rendered as position, key, value. *)
Theorem invalid_pairs s l enc nm X lvl msg kv :
  io_logger s l enc false nm X ->
  X <= lvl ->
  X <= DPanicLevel ->
  let ivs := slot_invalids (slots 0 kv) in
  Log.logw l lvl msg kv s
  = (terminal lvl msg,
     emit s (danglingWrites enc nm X (slots 0 kv)
             ++ (if (0 <? invalid_count kv)%nat then [invalidDiag nm enc ivs] else [])
             ++ [record nm enc lvl msg kv]))
  /\ length ivs = invalid_count kv
  /\ (forall p, In p ivs ->
        exists n : nat,
          position p = Z.of_nat n
          /\ kv !! n = Some (key p) /\ kv !! S n = Some (value p)
          /\ bare (key p) = true /\ is_string (key p) = false)
  /\ StronglySorted Z.lt (map position ivs)
  /\ Log.MarshalLogArray ivs
     = map (fun p => [zap.Int64 "position" (position p);
                      zap.Any "key" (key p); zap.Any "value" (value p)]) ivs.
Proof.
  intros Hio HX HD ivs.
  assert (Hn : length ivs = invalid_count kv) by apply slot_invalids_count.
  split; [|split; [exact Hn|split; [|split]]].
  - destruct (logw_on_io s l enc false nm X lvl msg kv Hio) as [a ->].
    rewrite logw_io_admitted; [|exact HX|left; reflexivity].
    rewrite terminal_in_false. unfold invalidWrites. fold ivs. rewrite Hn.
    replace (X <=? DPanicLevel) with true by (symmetry; apply Z.leb_le; exact HD).
    reflexivity.
  - intros p Hp. apply (slot_invalids_lookup kv 0%nat p Hp).
  - apply slot_invalids_sorted.
  - reflexivity.
Qed.

Lemma invalid_pairs_witness :
  Log.logw 0%nat InfoLevel "msg" [VInt 42; VString "v"; VString "k"; VInt 1] s_prod
  = (Normal tt,
     emit s_prod
       [mkWritten (mkEntry DPanicLevel "" Log.nonStringKeyErrMsg)
          [zap.Array "invalid"
             (VInvalidPairs [mkInvalidPair 0 (VInt 42) (VString "v")])];
        mkWritten (mkEntry InfoLevel "" "msg") [zap.Int64 "k" 1]]).
Proof.
  apply (invalid_pairs s_prod 0%nat [] "" InfoLevel InfoLevel "msg"
           [VInt 42; VString "v"; VString "k"; VInt 1] io_logger_prod);
    [unfold InfoLevel; lia | unfold InfoLevel, DPanicLevel; lia].
Defined.

(** C4, the claim on a development logger: the non-string-key
    diagnostic is written and then panics; the original record, with the
    field of the well-formed pair, never reaches the sink. *)
Lemma invalid_pairs_development :
  let r := Log.logw 0%nat InfoLevel "msg"
             [VInt 42; VString "v"; VString "k"; VInt 1] s_dev in
  fst r = Panics Log.nonStringKeyErrMsg
  /\ sink (snd r)
     = [invalidDiag "" [] [mkInvalidPair 0 (VInt 42) (VString "v")]]
  /\ ~ In (mkWritten (mkEntry InfoLevel "" "msg") [zap.Int64 "k" 1]) (sink (snd r)).
Proof.
  cbv zeta. split; [reflexivity|]. split; [reflexivity|].
  intros [H|[]]. discriminate H.
Qed.

Lemma SetLevel_io s l x X :
  loggers s !! l = Some x ->
  is_Some (levels s !! level x) ->
  Log.SetLevel l X s
  = (Normal tt,
     mkState (loggers s) (<[level x := X]> (levels s)) (defaultLogger s) (sink s)).
Proof.
  intros Hl [v Hv]. unfold Log.SetLevel.
  erewrite bind_normal by (apply deref_ok; exact Hl).
  unfold zaplog.AtomicLevel_SetLevel. rewrite Hv. reflexivity.
Qed.

(** C6, as the code has it. After [SetLevel l X] on a logger over an io
    core gated by the logger's own level: a call of [logw] at a level
    below [X] writes nothing; a call at [X] or above writes its record,
    after the diagnostics of its arguments (in development provided the
    arguments raise no diagnostic); and outside development the call
    ends as its level says whatever [X] is -- [Panic] panics and
    [Fatal] exits also below [X], where nothing is written. *)
Theorem level_gate s l x enc X lvl msg kv :
  loggers s !! l = Some x ->
  core (base x) = ioCore (level x) enc ->
  is_Some (levels s !! level x) ->
  let r := (_ ← Log.SetLevel l X; Log.logw l lvl msg kv) s in
  (lvl < X -> sink (snd r) = sink s)
  /\ (X <= lvl ->
      development (base x) = false
      \/ (dangling (slots 0 kv) = None /\ slot_invalids (slots 0 kv) = []) ->
      sink (snd r)
      = sink s ++ danglingWrites enc (name (base x)) X (slots 0 kv)
          ++ invalidWrites enc (name (base x)) X (slots 0 kv)
          ++ [record (name (base x)) enc lvl msg kv])
  /\ (development (base x) = false -> fst r = terminal lvl msg).
Proof.
  intros Hl Hcore Hlv r. subst r.
  erewrite bind_normal by (apply SetLevel_io; [exact Hl|exact Hlv]).
  set (s1 := mkState (loggers s) (<[level x := X]> (levels s))
                     (defaultLogger s) (sink s)).
  assert (Hb : base x = mkZap (ioCore (level x) enc) (development (base x))
                              (name (base x))).
  { destruct x as [[c d nm] lv]. simpl in *. subst c. reflexivity. }
  assert (HX : levels s1 !! level x = Some X).
  { subst s1. cbn [levels]. apply list_lookup_insert_eq.
    apply lookup_lt_is_Some. exact Hlv. }
  rewrite (logw_io_spec (level x) enc (development (base x)) (name (base x)) X
             s1 l x Hl Hb HX).
  cbn [fst snd emit sink]. subst s1. cbn [sink].
  split; [|split].
  - intros Hlt. rewrite logw_io_below by exact Hlt. apply app_nil_r.
  - intros Hle Hok. rewrite logw_io_admitted by assumption. reflexivity.
  - intros Hd. apply logw_io_prod_end. exact Hd.
Qed.

Lemma level_gate_witness :
  let r := (_ ← Log.SetLevel 0%nat WarnLevel;
            Log.logw 0%nat ErrorLevel "msg" [VString "k"; VInt 1]) s_prod in
  let r' := (_ ← Log.SetLevel 0%nat WarnLevel;
             Log.logw 0%nat InfoLevel "msg" [VString "k"; VInt 1]) s_prod in
  sink (snd r) = [mkWritten (mkEntry ErrorLevel "" "msg") [zap.Int64 "k" 1]]
  /\ fst r = Normal tt
  /\ sink (snd r') = [].
Proof.
  cbv zeta.
  pose (x := mkLogger (mkZap (ioCore 0%nat []) false "") 0%nat).
  assert (Hl : loggers s_prod !! 0%nat = Some x) by reflexivity.
  assert (Hc : core (base x) = ioCore (level x) []) by reflexivity.
  assert (Hv : is_Some (levels s_prod !! level x)) by (eexists; reflexivity).
  destruct (level_gate s_prod 0%nat x [] WarnLevel ErrorLevel "msg"
              [VString "k"; VInt 1] Hl Hc Hv) as (_ & H2 & H3).
  destruct (level_gate s_prod 0%nat x [] WarnLevel InfoLevel "msg"
              [VString "k"; VInt 1] Hl Hc Hv) as (H1 & _ & _).
  split; [|split].
  - apply H2; [unfold WarnLevel, ErrorLevel; lia | left; reflexivity].
  - apply H3. reflexivity.
  - apply H1. unfold WarnLevel, InfoLevel. lia.
Defined.

(** C6, the claim at [Panic] under a [Fatal] gate and at [DPanic] under
    a [Panic] gate: the gate check of [logw] is skipped, yet nothing is
    written; the first call only panics, the second only returns. *)
Lemma level_gate_no_bypass :
  let r1 := (_ ← Log.SetLevel 0%nat FatalLevel;
             Log.Panicw 0%nat "boom" [VString "k"; VInt 1]) s_prod in
  let r2 := (_ ← Log.SetLevel 0%nat PanicLevel;
             Log.DPanic 0%nat None "boom" [VString "k"; VInt 1]) s_prod in
  (fst r1 = Panics "boom" /\ sink (snd r1) = [])
  /\ (fst r2 = Normal tt /\ sink (snd r2) = []).
Proof. cbv zeta. repeat split. Qed.



(** [With] stores the extended zap logger in the receiver and returns
    the receiver's own address. *)
Lemma With_in_place s l x fs :
  loggers s !! l = Some x ->
  Log.With l fs s
  = (Normal l,
     mkState (<[l := mkLogger (zaplog.With (base x) fs) (level x)]> (loggers s))
             (levels s) (defaultLogger s) (sink s)).
Proof.
  intros Hl. unfold Log.With.
  erewrite bind_normal by (apply deref_ok; exact Hl).
  reflexivity.
Qed.

(** C1, the code at a concrete input. [With] is called twice on one
    logger: both results are the receiver's address, and a record logged
    afterwards through the receiver, or through the first result,
    carries the fields of both calls. *)
Lemma With_changes_receiver :
  let f1 := Log.Method "GET" in
  let f2 := Log.Action "list" in
  let run :=
    (l ← Log.NewLogger;
     l1 ← Log.With l [f1];
     l2 ← Log.With l [f2];
     _ ← Log.Infow l "from the receiver" [];
     _ ← Log.Infow l1 "from the sibling" [];
     mret (l, l1, l2)) s_empty in
  fst run = Normal (0%nat, 0%nat, 0%nat)
  /\ sink (snd run)
     = [mkWritten (mkEntry InfoLevel "" "from the receiver") [f1; f2];
        mkWritten (mkEntry InfoLevel "" "from the sibling") [f1; f2]].
Proof. cbv zeta. split; reflexivity. Qed.

(** C2, the code at a concrete input. [DPanicw] is [logw] at
    [InfoLevel]: its record carries the info level where [DPanic] writes
    one at [DPanicLevel]; under a [Warn] gate it writes nothing where
    [DPanic] writes; in development it returns where [DPanic] panics. *)
Lemma DPanicw_dispatches_at_Info :
  (forall l msg kv, Log.DPanicw l msg kv = Log.logw l InfoLevel msg kv)
  /\ sink (snd (Log.DPanicw 0%nat "boom" [] s_prod))
     = [mkWritten (mkEntry InfoLevel "" "boom") []]
  /\ sink (snd (Log.DPanic 0%nat None "boom" [] s_prod))
     = [mkWritten (mkEntry DPanicLevel "" "boom") [Log.TraceId None]]
  /\ sink (snd ((_ ← Log.SetLevel 0%nat WarnLevel; Log.DPanicw 0%nat "boom" []) s_prod))
     = []
  /\ sink (snd ((_ ← Log.SetLevel 0%nat WarnLevel; Log.DPanic 0%nat None "boom" []) s_prod))
     = [mkWritten (mkEntry DPanicLevel "" "boom") [Log.TraceId None]]
  /\ fst (Log.DPanicw 0%nat "boom" [] s_dev) = Normal tt
  /\ fst (Log.DPanic 0%nat None "boom" [] s_dev) = Panics "boom".
Proof. repeat split. Qed.

(** ** Further facts about the embedding *)

(** [Named] with a non-empty name allocates a copy and leaves the
    receiver as it was: the sibling of [With] that does not assign to
    the receiver. *)
Lemma Named_copies s l x nm :
  loggers s !! l = Some x ->
  String.eqb nm "" = false ->
  exists s',
    Log.Named l nm s = (Normal (length (loggers s)), s')
    /\ loggers s' !! l = Some x
    /\ loggers s' !! length (loggers s)
       = Some (mkLogger (zaplog.Named (base x) nm) (level x)).
Proof.
  intros Hl Hnm. unfold Log.Named. rewrite Hnm.
  erewrite bind_normal by (apply deref_ok; exact Hl).
  eexists. split; [reflexivity|]. cbn [loggers]. split.
  - rewrite lookup_app_l; [exact Hl|]. apply lookup_lt_is_Some. eexists. exact Hl.
  - rewrite lookup_app_r by lia. rewrite Nat.sub_diag. reflexivity.
Qed.

(** A lone key handed to a method taking a context is not dangling for
    the loop: the appended trace field is read as its value. *)
Example Info_lone_key :
  Log.Info 0%nat None "msg" [VString "onlykey"] s_prod
  = (Normal tt,
     emit s_prod
       [mkWritten (mkEntry InfoLevel "" "msg")
          [zap.Reflect "onlykey" (VField (Log.TraceId None))]]).
Proof. reflexivity. Qed.

(** A logger of [NewNopLogger] writes nothing, whatever its level. *)
Example Nop_never_writes :
  let r := (l ← Log.NewNopLogger;
            _ ← Log.SetLevel l DebugLevel;
            Log.Errorw l "msg" [VString "k"; VInt 1]) s_empty in
  fst r = Normal tt /\ sink (snd r) = [].
Proof. cbv zeta. split; reflexivity. Qed.

(** The level cell is shared by a logger and the loggers derived from
    it with [Named]. *)
Example Named_shares_level :
  let r := (l ← Log.NewLogger;
            c ← Log.Named l "child";
            _ ← Log.SetLevel l ErrorLevel;
            _ ← Log.Infow c "dropped" [];
            _ ← Log.Errorw c "kept" [];
            Log.Logger_Level c) s_empty in
  fst r = Normal ErrorLevel
  /\ sink (snd r) = [mkWritten (mkEntry ErrorLevel "child" "kept") []].
Proof. cbv zeta. split; reflexivity. Qed.

(** ** What a call can do to the store *)

(** A computation that, whatever its outcome, leaves the store as it
    found it apart from records appended to the sink. *)
Definition only_emits {A} (m : M A) : Prop :=
  forall s, exists ws, snd (m s) = emit s ws.

Create HintDb emits.

Lemma only_emits_ret {A} (a : A) : only_emits (mret a).
Proof. intros s. exists []. cbn. symmetry. apply emit_nil. Qed.

Lemma only_emits_panic {A} v : only_emits (@panic A v).
Proof. intros s. exists []. cbn. symmetry. apply emit_nil. Qed.

Lemma only_emits_exit {A} c : only_emits (@exit A c).
Proof. intros s. exists []. cbn. symmetry. apply emit_nil. Qed.

Lemma only_emits_bind {A B} (m : M A) (f : A -> M B) :
  only_emits m -> (forall a, only_emits (f a)) -> only_emits (x ← m; f x).
Proof.
  intros Hm Hf s. destruct (Hm s) as [ws1 H1].
  unfold mbind, M_bind. destruct (m s) as [[a|v|c] s1]; cbn in H1; subst s1.
  - destruct (Hf a (emit s ws1)) as [ws2 H2]. exists (ws1 ++ ws2).
    rewrite H2. apply emit_emit.
  - exists ws1. reflexivity.
  - exists ws1. reflexivity.
Qed.

Lemma only_emits_if {A} (c : bool) (m1 m2 : M A) :
  only_emits m1 -> only_emits m2 -> only_emits (if c then m1 else m2).
Proof. destruct c; auto. Qed.

Lemma only_emits_deref l : only_emits (deref l).
Proof.
  intros s. exists []. unfold deref.
  destruct (loggers s !! l); cbn; symmetry; apply emit_nil.
Qed.

Lemma only_emits_Level c : only_emits (zaplog.AtomicLevel_Level c).
Proof.
  intros s. exists []. unfold zaplog.AtomicLevel_Level.
  destruct (levels s !! c); cbn; symmetry; apply emit_nil.
Qed.

#[local] Hint Resolve only_emits_ret only_emits_panic only_emits_exit
  only_emits_deref only_emits_Level : emits.

Ltac emits :=
  repeat first
    [ solve [auto with emits]
    | apply only_emits_bind; [|intros ?]
    | apply only_emits_if ].

Lemma only_emits_Enabled c lvl : only_emits (zaplog.Core_Enabled c lvl).
Proof. destruct c; cbn [zaplog.Core_Enabled]; emits. Qed.

#[local] Hint Resolve only_emits_Enabled : emits.

Lemma only_emits_Core_Check c ent ce : only_emits (zaplog.Core_Check c ent ce).
Proof. destruct c; cbn [zaplog.Core_Check]; emits. Qed.

Lemma only_emits_Core_Write c ent fs : only_emits (zaplog.Core_Write c ent fs).
Proof.
  destruct c; cbn [zaplog.Core_Write]; [|emits].
  intros s. eexists. reflexivity.
Qed.

#[local] Hint Resolve only_emits_Core_Check only_emits_Core_Write : emits.

Lemma only_emits_write_cores cs ent fs : only_emits (zaplog.write_cores cs ent fs).
Proof. induction cs as [|c r IH]; cbn [zaplog.write_cores]; emits. Qed.

#[local] Hint Resolve only_emits_write_cores : emits.

Lemma only_emits_Write ce fs : only_emits (zaplog.CheckedEntry_Write ce fs).
Proof.
  unfold zaplog.CheckedEntry_Write. emits. destruct (should ce); emits.
Qed.

Lemma only_emits_Check b lvl msg : only_emits (zaplog.Check b lvl msg).
Proof. unfold zaplog.Check. emits. Qed.

#[local] Hint Resolve only_emits_Write only_emits_Check : emits.

Lemma only_emits_DPanic b msg fs : only_emits (zaplog.DPanic b msg fs).
Proof.
  unfold zaplog.DPanic.
  apply only_emits_bind; [emits|]. intros [ce|]; emits.
Qed.

#[local] Hint Resolve only_emits_DPanic : emits.

Lemma only_emits_loop b kv fuel : forall i fields invalids,
  only_emits (Log.logw_loop b kv fuel i fields invalids).
Proof.
  induction fuel as [|fuel IH]; intros i fields invalids;
    cbn [Log.logw_loop]; [emits|].
  destruct (negb (i <? length kv)%nat); [emits|].
  destruct (kv !! i) as [k|]; [|emits].
  assert (Hkey : only_emits
    (if (i =? length kv - 1)%nat
     then _ ← zaplog.DPanic b Log.danglingKeyErrMsg [zap.Any "ignored" k];
          mret (fields, invalids)
     else match kv !! (i + 1)%nat with
          | Some v =>
              match k with
              | VString s =>
                  Log.logw_loop b kv fuel (i + 2)%nat
                    (fields ++ [zap.Any s v]) invalids
              | _ =>
                  Log.logw_loop b kv fuel (i + 2)%nat fields
                    (invalids ++ [mkInvalidPair (Z.of_nat i) k v])
              end
          | None => panic indexOutOfRange
          end)).
  { apply only_emits_if; [emits|].
    destruct (kv !! (i + 1)%nat) as [v|]; [|emits].
    destruct k; apply IH. }
  destruct k; try exact Hkey; apply IH.
Qed.

#[local] Hint Resolve only_emits_loop : emits.

Lemma only_emits_logw l lvl msg kv : only_emits (Log.logw l lvl msg kv).
Proof.
  unfold Log.logw.
  apply only_emits_bind; [emits|]. intros x.
  apply only_emits_bind; [emits|]. intros [|]; [emits|].
  apply only_emits_bind; [emits|]. intros [ce|]; [|emits].
  destruct (0 <? length kv)%nat; [|emits].
  apply only_emits_bind; [emits|]. intros [fs ivs]. emits.
Qed.

(** X1. [logw], and so every leveled method built on it, only appends to
    the sink: on any store, for any receiver (allocated or not), level
    and arguments, and whether it returns, panics or exits, the logger
    structs, the level cells and the singleton slot are as before and
    the records already written stay in place. *)
Theorem logw_only_appends l lvl msg kv s :
  let s' := snd (Log.logw l lvl msg kv s) in
  loggers s' = loggers s
  /\ levels s' = levels s
  /\ defaultLogger s' = defaultLogger s
  /\ exists ws, sink s' = sink s ++ ws.
Proof.
  cbv zeta. destruct (only_emits_logw l lvl msg kv s) as [ws ->].
  repeat split. exists ws. reflexivity.
Qed.

(** ** Receivers that are not allocated, and the no-op logger *)

(** X2. A method called through an address that holds no logger (a nil or
    stale pointer) ends in the nil dereference of its first read of the
    receiver and leaves the store untouched; only [Named] with the empty
    name returns, since it returns the receiver before reading it. *)
Theorem unallocated_receiver s l :
  loggers s !! l = None ->
  (forall lvl msg kv, Log.logw l lvl msg kv s = (Panics nilDeref, s))
  /\ (forall fs, Log.With l fs s = (Panics nilDeref, s))
  /\ (forall X, Log.SetLevel l X s = (Panics nilDeref, s))
  /\ Log.Logger_Level l s = (Panics nilDeref, s)
  /\ (forall nm, String.eqb nm "" = false ->
                 Log.Named l nm s = (Panics nilDeref, s))
  /\ Log.Named l "" s = (Normal l, s).
Proof.
  intros Hl.
  assert (Hd : deref l s = (Panics nilDeref, s)).
  { unfold deref. rewrite Hl. reflexivity. }
  repeat split; intros.
  - unfold Log.logw. erewrite bind_panics by exact Hd. reflexivity.
  - unfold Log.With. erewrite bind_panics by exact Hd. reflexivity.
  - unfold Log.SetLevel. erewrite bind_panics by exact Hd. reflexivity.
  - unfold Log.Logger_Level. erewrite bind_panics by exact Hd. reflexivity.
  - unfold Log.Named. rewrite H. erewrite bind_panics by exact Hd. reflexivity.
Qed.

Lemma unallocated_receiver_witness :
  Log.logw 3%nat InfoLevel "msg" [VString "k"; VInt 1] s_prod = (Panics nilDeref, s_prod)
  /\ Log.Named 3%nat "" s_prod = (Normal 3%nat, s_prod).
Proof.
  destruct (unallocated_receiver s_prod 3%nat) as (H1 & _ & _ & _ & _ & H6);
    [reflexivity|].
  split; [apply H1 | exact H6].
Defined.

Lemma DPanic_nop nm msg fs s :
  zaplog.DPanic (mkZap nopCore false nm) msg fs s = (Normal tt, s).
Proof. reflexivity. Qed.

Lemma Check_nop nm lvl msg s :
  zaplog.Check (mkZap nopCore false nm) lvl msg s
  = (Normal (if lvl <? DPanicLevel then None
             else if lvl =? PanicLevel
                  then Some (mkCE (mkEntry lvl nm msg) WriteThenPanic [])
             else if lvl =? FatalLevel
                  then Some (mkCE (mkEntry lvl nm msg) WriteThenFatal [])
             else None), s).
Proof.
  unfold zaplog.Check. cbn [core development name].
  destruct (lvl <? DPanicLevel); [reflexivity|].
  erewrite bind_normal by reflexivity. cbv iota.
  erewrite bind_normal by reflexivity.
  destruct (lvl =? PanicLevel); [reflexivity|].
  destruct (lvl =? FatalLevel); [reflexivity|].
  destruct (lvl =? DPanicLevel); reflexivity.
Qed.

Lemma loop_nop nm kv s :
  Log.logw_loop (mkZap nopCore false nm) kv (length kv) 0 [] [] s
  = (Normal (slot_fields (slots 0 kv), slot_invalids (slots 0 kv)), s).
Proof.
  rewrite logw_loop_start. unfold loop_result.
  destruct (dangling (slots 0 kv)); [|reflexivity].
  erewrite bind_normal by apply DPanic_nop. reflexivity.
Qed.

(** X3. A logger over the no-op core that is not in development, as
    [NewNopLogger] builds it, never writes: for every level, message and
    argument list, well-formed or not, the store is unchanged, whatever
    the logger's level cell holds. The call still ends as its level says:
    [Panic] panics and [Fatal] exits. *)
Theorem nop_logger_silent s l x lvl msg kv :
  loggers s !! l = Some x ->
  core (base x) = nopCore ->
  development (base x) = false ->
  Log.logw l lvl msg kv s = (terminal lvl msg, s).
Proof.
  intros Hl Hc Hd.
  assert (Hb : base x = mkZap nopCore false (name (base x))).
  { destruct x as [[c d nm] lv]. simpl in *. subst. reflexivity. }
  unfold Log.logw. erewrite bind_normal by (apply deref_ok; exact Hl).
  rewrite Hb. cbn [core]. unfold terminal.
  destruct (Z.ltb_spec lvl DPanicLevel) as [Hlt|Hge].
  - replace (lvl =? PanicLevel) with false
      by (symmetry; apply Z.eqb_neq; unfold PanicLevel, DPanicLevel in *; lia).
    replace (lvl =? FatalLevel) with false
      by (symmetry; apply Z.eqb_neq; unfold FatalLevel, DPanicLevel in *; lia).
    reflexivity.
  - replace (lvl <? DPanicLevel) with false by (symmetry; apply Z.ltb_ge; exact Hge).
    erewrite bind_normal by reflexivity. cbv iota.
    erewrite bind_normal by apply Check_nop.
    replace (lvl <? DPanicLevel) with false by (symmetry; apply Z.ltb_ge; exact Hge).
    assert (Hrun : forall sh,
      (let n := length kv in
       if (0 <? n)%nat
       then '(fields, invalids) ←
              Log.logw_loop (mkZap nopCore false (name (base x))) kv n 0 [] [];
            _ ← (if (0 <? length invalids)%nat
                 then zaplog.DPanic (mkZap nopCore false (name (base x)))
                        Log.nonStringKeyErrMsg
                        [zap.Array "invalid" (VInvalidPairs invalids)]
                 else mret tt);
            zaplog.CheckedEntry_Write
              (mkCE (mkEntry lvl (name (base x)) msg) sh []) fields
       else zaplog.CheckedEntry_Write
              (mkCE (mkEntry lvl (name (base x)) msg) sh []) []) s
      = (after_write (mkCE (mkEntry lvl (name (base x)) msg) sh []), s)).
    { intros sh. cbv zeta. destruct (0 <? length kv)%nat.
      - erewrite bind_normal by apply loop_nop. cbv beta iota.
        erewrite bind_normal.
        2:{ match goal with
            | |- (if ?c then _ else _) _ = _ => destruct c
            end; [apply DPanic_nop | reflexivity]. }
        rewrite CheckedEntry_Write_emit. cbn [cores map concat].
        rewrite emit_nil. reflexivity.
      - rewrite CheckedEntry_Write_emit. cbn [cores map concat].
        rewrite emit_nil. reflexivity. }
    destruct (lvl =? PanicLevel); [apply Hrun|].
    destruct (lvl =? FatalLevel); [apply Hrun|].
    destruct (lvl =? DPanicLevel); reflexivity.
Qed.

Lemma nop_logger_silent_witness :
  let s := snd (Log.NewNopLogger s_empty) in
  Log.logw 0%nat PanicLevel "boom" [VInt 42; VString "v"; VString "lone"] s
  = (Panics "boom", s).
Proof.
  cbv zeta.
  apply (nop_logger_silent _ 0%nat (mkLogger (mkZap nopCore false "") 0%nat));
    reflexivity.
Defined.

(** ** Constructors, [With], [Named], [Level] and [SetLevel] *)

(** Allocation only extends the store: what was an io logger stays one. *)
Lemma io_logger_extend s s' l enc d nm X :
  (exists ls, loggers s' = loggers s ++ ls) ->
  (exists vs, levels s' = levels s ++ vs) ->
  io_logger s l enc d nm X -> io_logger s' l enc d nm X.
Proof.
  intros [ls Hls] [vs Hvs] (x & a & Hl & Hb & HX). exists x, a.
  rewrite Hls, Hvs. repeat split; [|exact Hb|].
  - rewrite lookup_app_l; [exact Hl|]. apply lookup_lt_is_Some. eexists; exact Hl.
  - rewrite lookup_app_l; [exact HX|]. apply lookup_lt_is_Some. eexists; exact HX.
Qed.

(** The store after an io logger with a cell of its own is allocated. *)
Definition with_new_logger (s : State) (d : bool) (lvl : Level) : State :=
  mkState (loggers s ++ [mkLogger (mkZap (ioCore (length (levels s)) []) d "")
                                  (length (levels s))])
          (levels s ++ [lvl]) (defaultLogger s) (sink s).

Lemma with_new_logger_io s d lvl :
  io_logger (with_new_logger s d lvl) (length (loggers s)) [] d "" lvl
  /\ (forall l enc d' nm X,
        io_logger s l enc d' nm X ->
        io_logger (with_new_logger s d lvl) l enc d' nm X).
Proof.
  split.
  - exists (mkLogger (mkZap (ioCore (length (levels s)) []) d "") (length (levels s))),
           (length (levels s)).
    unfold with_new_logger. cbn [loggers levels base].
    repeat split.
    + rewrite lookup_app_r by lia. rewrite Nat.sub_diag. reflexivity.
    + rewrite lookup_app_r by lia. rewrite Nat.sub_diag. reflexivity.
  - intros l enc d' nm X. apply io_logger_extend; cbn; eexists; reflexivity.
Qed.

(** X4. On any store, [NewLogger] allocates a logger at a fresh address
    over an io core with an empty encoder, outside development, unnamed
    and gated at [InfoLevel]; [NewDevelopmentLogger] does the same in
    development at [DebugLevel]. Neither writes, touches the singleton
    slot, or disturbs a logger that existed. *)
Theorem constructors_fresh s :
  (exists s',
     Log.NewLogger s = (Normal (length (loggers s)), s')
     /\ loggers s !! length (loggers s) = None
     /\ io_logger s' (length (loggers s)) [] false "" InfoLevel
     /\ (forall l enc d nm X, io_logger s l enc d nm X -> io_logger s' l enc d nm X)
     /\ sink s' = sink s /\ defaultLogger s' = defaultLogger s)
  /\ (exists s',
        Log.NewDevelopmentLogger s = (Normal (length (loggers s)), s')
        /\ loggers s !! length (loggers s) = None
        /\ io_logger s' (length (loggers s)) [] true "" DebugLevel
        /\ (forall l enc d nm X, io_logger s l enc d nm X -> io_logger s' l enc d nm X)
        /\ sink s' = sink s /\ defaultLogger s' = defaultLogger s).
Proof.
  assert (Hfresh : loggers s !! length (loggers s) = None)
    by (apply lookup_ge_None; lia).
  split.
  - exists (with_new_logger s false InfoLevel).
    destruct (with_new_logger_io s false InfoLevel) as [H1 H2].
    repeat split; assumption.
  - exists (with_new_logger s true DebugLevel).
    destruct (with_new_logger_io s true DebugLevel) as [H1 H2].
    repeat split; assumption.
Qed.

(** X5. [With] on a logger over an io core returns the receiver, whose
    encoder now holds the fields bound before followed by the new ones;
    name, development flag and level are kept, every other logger, the
    level cells, the slot and the sink are untouched. From then on a
    record written through the logger carries the old bound fields, the
    new fields and the fields of the call, in this order. *)
Theorem With_binds_fields s l enc d nm X fs :
  io_logger s l enc d nm X ->
  exists s',
    Log.With l fs s = (Normal l, s')
    /\ io_logger s' l (enc ++ fs) d nm X
    /\ (forall l', l' <> l -> loggers s' !! l' = loggers s !! l')
    /\ levels s' = levels s /\ defaultLogger s' = defaultLogger s
    /\ sink s' = sink s
    /\ (forall lvl msg kv,
          X <= lvl ->
          d = false
          \/ (dangling (slots 0 kv) = None /\ slot_invalids (slots 0 kv) = []) ->
          sink (snd (Log.logw l lvl msg kv s'))
          = sink s ++ danglingWrites (enc ++ fs) nm X (slots 0 kv)
              ++ invalidWrites (enc ++ fs) nm X (slots 0 kv)
              ++ [mkWritten (mkEntry lvl nm msg)
                            ((enc ++ fs) ++ slot_fields (slots 0 kv))]).
Proof.
  intros (x & a & Hl & Hb & HX).
  eexists. split; [apply With_in_place; exact Hl|].
  set (s' := mkState _ _ _ _).
  assert (Hio : io_logger s' l (enc ++ fs) d nm X).
  { exists (mkLogger (zaplog.With (base x) fs) (level x)), a. repeat split.
    - subst s'. cbn [loggers]. apply list_lookup_insert_eq.
      apply lookup_lt_is_Some. eexists; exact Hl.
    - cbn [base]. rewrite Hb. destruct fs; [rewrite app_nil_r|]; reflexivity.
    - exact HX. }
  split; [exact Hio|]. repeat split.
  - intros l' Hne. subst s'. cbn [loggers]. apply list_lookup_insert_ne. congruence.
  - intros lvl msg kv Hle Hok.
    destruct (logw_on_io s' l (enc ++ fs) d nm X lvl msg kv Hio) as [a' ->].
    rewrite logw_io_admitted by assumption. reflexivity.
Qed.

Lemma With_binds_fields_witness :
  exists s',
    Log.With 0%nat [Log.Method "GET"] s_prod = (Normal 0%nat, s')
    /\ sink (snd (Log.logw 0%nat InfoLevel "msg" [VString "k"; VInt 1] s'))
       = [mkWritten (mkEntry InfoLevel "" "msg") [Log.Method "GET"; zap.Int64 "k" 1]].
Proof.
  destruct (With_binds_fields s_prod 0%nat [] false "" InfoLevel [Log.Method "GET"]
              io_logger_prod) as (s' & H1 & _ & _ & _ & _ & _ & H7).
  exists s'. split; [exact H1|].
  apply (H7 InfoLevel "msg" [VString "k"; VInt 1]);
    [unfold InfoLevel; lia | left; reflexivity].
Defined.

Lemma zaplog_With_app b fs1 fs2 :
  zaplog.With (zaplog.With b fs1) fs2 = zaplog.With b (fs1 ++ fs2).
Proof.
  destruct fs1 as [|f1 r1]; [reflexivity|].
  destruct fs2 as [|f2 r2].
  - rewrite app_nil_r. reflexivity.
  - destruct b as [[a enc|] d nm]; cbn; [|reflexivity].
    rewrite <- app_assoc. reflexivity.
Qed.

(** X6. [With] composes and has a neutral argument: on an allocated
    logger, over any core, two calls in a row leave the store exactly as
    one call with the concatenated fields does, and a call without
    fields changes nothing. *)
Theorem With_compose s l x fs1 fs2 :
  loggers s !! l = Some x ->
  (l1 ← Log.With l fs1; Log.With l1 fs2) s = Log.With l (fs1 ++ fs2) s
  /\ Log.With l [] s = (Normal l, s).
Proof.
  intros Hl. split.
  - erewrite bind_normal by (apply With_in_place; exact Hl).
    erewrite With_in_place.
    2:{ cbn [loggers]. apply list_lookup_insert_eq.
        apply lookup_lt_is_Some. eexists; exact Hl. }
    rewrite (With_in_place s l x (fs1 ++ fs2) Hl).
    cbn [loggers levels defaultLogger sink base level].
    rewrite list_insert_insert_eq, zaplog_With_app. reflexivity.
  - rewrite (With_in_place s l x [] Hl). cbn [zaplog.With].
    replace (mkLogger (base x) (level x)) with x by (destruct x; reflexivity).
    rewrite list_insert_id by exact Hl. destruct s; reflexivity.
Qed.

Lemma With_compose_witness :
  (l1 ← Log.With 0%nat [Log.Method "GET"]; Log.With l1 [Log.Count 2]) s_prod
  = Log.With 0%nat ([Log.Method "GET"] ++ [Log.Count 2]) s_prod
  /\ Log.With 0%nat [] s_prod = (Normal 0%nat, s_prod).
Proof.
  apply (With_compose s_prod 0%nat (mkLogger (mkZap (ioCore 0%nat []) false "") 0%nat)).
  reflexivity.
Defined.

(** The name [zap.Logger.Named] gives: segments joined by periods. *)
Definition dotted (parent seg : string) : string :=
  if String.eqb parent "" then seg
  else String.append parent (String.append "." seg).

(** X7. [Named] with a non-empty segment on a logger over an io core
    allocates a new logger at a fresh address: same bound fields, same
    development flag, same level, the name extended by the segment after
    a period (the bare segment under an unnamed parent). The receiver
    and every other logger stay as they were, nothing is written, and a
    record written through the new logger carries the new name. *)
Theorem Named_derives s l enc d nm0 X nm :
  io_logger s l enc d nm0 X ->
  String.eqb nm "" = false ->
  exists s',
    Log.Named l nm s = (Normal (length (loggers s)), s')
    /\ length (loggers s) <> l
    /\ io_logger s' (length (loggers s)) enc d (dotted nm0 nm) X
    /\ (forall l' enc' d' nm' X',
          io_logger s l' enc' d' nm' X' -> io_logger s' l' enc' d' nm' X')
    /\ levels s' = levels s /\ defaultLogger s' = defaultLogger s
    /\ sink s' = sink s
    /\ (forall lvl msg,
          X <= lvl ->
          sink (snd (Log.logw (length (loggers s)) lvl msg [] s'))
          = sink s ++ [mkWritten (mkEntry lvl (dotted nm0 nm) msg) enc]).
Proof.
  intros (x & a & Hl & Hb & HX) Hnm.
  assert (Hlt : (l < length (loggers s))%nat)
    by (apply lookup_lt_is_Some; eexists; exact Hl).
  unfold Log.Named. rewrite Hnm.
  erewrite bind_normal by (apply deref_ok; exact Hl).
  eexists. split; [reflexivity|].
  set (s' := mkState _ _ _ _).
  assert (Hio : io_logger s' (length (loggers s)) enc d (dotted nm0 nm) X).
  { exists (mkLogger (zaplog.Named (base x) nm) (level x)), a. repeat split.
    - subst s'. cbn [loggers]. rewrite lookup_app_r by lia.
      rewrite Nat.sub_diag. reflexivity.
    - cbn [base]. rewrite Hb. unfold zaplog.Named, dotted. rewrite Hnm.
      reflexivity.
    - exact HX. }
  split; [lia|]. split; [exact Hio|]. repeat split.
  - intros l' enc' d' nm' X'. apply io_logger_extend.
    + subst s'. cbn [loggers]. eexists. reflexivity.
    + subst s'. cbn [levels]. exists []. rewrite app_nil_r. reflexivity.
  - intros lvl msg Hle.
    destruct (logw_on_io s' _ enc d (dotted nm0 nm) X lvl msg [] Hio) as [a' ->].
    rewrite logw_io_admitted; [|exact Hle|right; split; reflexivity].
    unfold record, danglingWrites, invalidWrites, slot_fields, slot_invalids.
    cbn. rewrite ?app_nil_r. reflexivity.
Qed.

Lemma Named_derives_witness :
  exists s',
    Log.Named 0%nat "db" s_prod = (Normal 1%nat, s')
    /\ sink (snd (Log.logw 1%nat ErrorLevel "msg" [] s'))
       = [mkWritten (mkEntry ErrorLevel "db" "msg") []].
Proof.
  destruct (Named_derives s_prod 0%nat [] false "" InfoLevel "db" io_logger_prod)
    as (s' & H1 & _ & _ & _ & _ & _ & _ & H8); [reflexivity|].
  exists s'. split; [exact H1|].
  apply (H8 ErrorLevel "msg"). unfold InfoLevel, ErrorLevel. lia.
Defined.

Lemma Logger_Level_ok s l x v :
  loggers s !! l = Some x ->
  levels s !! level x = Some v ->
  Log.Logger_Level l s = (Normal v, s).
Proof.
  intros Hl Hv. unfold Log.Logger_Level.
  erewrite bind_normal by (apply deref_ok; exact Hl).
  unfold zaplog.AtomicLevel_Level. rewrite Hv. reflexivity.
Qed.

(** X8. [SetLevel] then [Level] reads back the level that was set, and of
    two [SetLevel] calls in a row the last one wins: the store is as
    after the second call alone. *)
Theorem SetLevel_Level s l x X Y :
  loggers s !! l = Some x ->
  is_Some (levels s !! level x) ->
  fst ((_ ← Log.SetLevel l X; Log.Logger_Level l) s) = Normal X
  /\ (_ ← Log.SetLevel l X; Log.SetLevel l Y) s = Log.SetLevel l Y s.
Proof.
  intros Hl Hv.
  assert (Hlt : (level x < length (levels s))%nat)
    by (apply lookup_lt_is_Some; exact Hv).
  split.
  - erewrite bind_normal by (apply SetLevel_io; eassumption).
    erewrite Logger_Level_ok; [reflexivity|exact Hl|].
    cbn [levels]. apply list_lookup_insert_eq. exact Hlt.
  - erewrite bind_normal by (apply SetLevel_io; eassumption).
    rewrite (SetLevel_io s l x Y Hl Hv).
    erewrite SetLevel_io; [|exact Hl|].
    + cbn [loggers levels defaultLogger sink].
      rewrite list_insert_insert_eq. reflexivity.
    + cbn [levels]. eexists. apply list_lookup_insert_eq. exact Hlt.
Qed.

Lemma SetLevel_Level_witness :
  fst ((_ ← Log.SetLevel 0%nat ErrorLevel; Log.Logger_Level 0%nat) s_prod)
  = Normal ErrorLevel
  /\ (_ ← Log.SetLevel 0%nat ErrorLevel; Log.SetLevel 0%nat DebugLevel) s_prod
     = Log.SetLevel 0%nat DebugLevel s_prod.
Proof.
  apply (SetLevel_Level s_prod 0%nat
           (mkLogger (mkZap (ioCore 0%nat []) false "") 0%nat)).
  - reflexivity.
  - eexists. reflexivity.
Defined.

(** X9. The level is one dial for a logger and the loggers derived from it
    with [Named]: a level set through the parent is the level read
    through the child, and a level set through the child is the level
    read through the parent. *)
Theorem Named_shares_dial s l x nm X :
  loggers s !! l = Some x ->
  is_Some (levels s !! level x) ->
  fst ((c ← Log.Named l nm; _ ← Log.SetLevel l X; Log.Logger_Level c) s) = Normal X
  /\ fst ((c ← Log.Named l nm; _ ← Log.SetLevel c X; Log.Logger_Level l) s) = Normal X.
Proof.
  intros Hl Hv.
  assert (Hlt : (level x < length (levels s))%nat)
    by (apply lookup_lt_is_Some; exact Hv).
  assert (Hll : (l < length (loggers s))%nat)
    by (apply lookup_lt_is_Some; eexists; exact Hl).
  unfold Log.Named. destruct (String.eqb nm "").
  - split; (erewrite bind_normal by reflexivity;
            erewrite bind_normal by (apply SetLevel_io; eassumption);
            erewrite Logger_Level_ok; [reflexivity|exact Hl|];
            cbn [levels]; apply list_lookup_insert_eq; exact Hlt).
  - set (c := mkLogger (zaplog.Named (base x) nm) (level x)).
    assert (Hn : forall s1, loggers s1 = loggers s ++ [c] ->
                            loggers s1 !! length (loggers s) = Some c).
    { intros s1 ->. rewrite lookup_app_r by lia.
      rewrite Nat.sub_diag. reflexivity. }
    assert (Ho : forall s1, loggers s1 = loggers s ++ [c] ->
                            loggers s1 !! l = Some x).
    { intros s1 ->. rewrite lookup_app_l by exact Hll. exact Hl. }
    split.
    + erewrite bind_normal.
      2:{ erewrite bind_normal by (apply deref_ok; exact Hl). reflexivity. }
      erewrite bind_normal.
      2:{ apply SetLevel_io; [apply Ho; reflexivity | exact Hv]. }
      erewrite Logger_Level_ok; [reflexivity|apply Hn; reflexivity|].
      cbn [levels level c]. apply list_lookup_insert_eq. exact Hlt.
    + erewrite bind_normal.
      2:{ erewrite bind_normal by (apply deref_ok; exact Hl). reflexivity. }
      erewrite bind_normal.
      2:{ apply SetLevel_io; [apply Hn; reflexivity | exact Hv]. }
      erewrite Logger_Level_ok; [reflexivity|apply Ho; reflexivity|].
      cbn [levels level c]. apply list_lookup_insert_eq. exact Hlt.
Qed.

Lemma Named_shares_dial_witness :
  fst ((c ← Log.Named 0%nat "db"; _ ← Log.SetLevel 0%nat ErrorLevel;
        Log.Logger_Level c) s_prod) = Normal ErrorLevel
  /\ fst ((c ← Log.Named 0%nat "db"; _ ← Log.SetLevel c ErrorLevel;
           Log.Logger_Level 0%nat) s_prod) = Normal ErrorLevel.
Proof.
  apply (Named_shares_dial s_prod 0%nat
           (mkLogger (mkZap (ioCore 0%nat []) false "") 0%nat)).
  - reflexivity.
  - eexists. reflexivity.
Defined.

(** X10. Loggers with different level cells, as two loggers from
    constructors are, have independent levels: [SetLevel] on one leaves
    the level read through the other as it was. *)
Theorem SetLevel_other_logger s l1 l2 x1 x2 X v :
  loggers s !! l1 = Some x1 ->
  loggers s !! l2 = Some x2 ->
  is_Some (levels s !! level x1) ->
  levels s !! level x2 = Some v ->
  level x1 <> level x2 ->
  fst ((_ ← Log.SetLevel l1 X; Log.Logger_Level l2) s) = Normal v.
Proof.
  intros H1 H2 Hv1 Hv2 Hne.
  erewrite bind_normal by (apply SetLevel_io; eassumption).
  erewrite Logger_Level_ok; [reflexivity|exact H2|].
  cbn [levels]. rewrite list_lookup_insert_ne by exact Hne. exact Hv2.
Qed.

Lemma SetLevel_other_logger_witness :
  let s := snd (Log.NewDevelopmentLogger s_prod) in
  fst ((_ ← Log.SetLevel 0%nat FatalLevel; Log.Logger_Level 1%nat) s)
  = Normal DebugLevel.
Proof.
  cbv zeta.
  apply (SetLevel_other_logger _ 0%nat 1%nat
           (mkLogger (mkZap (ioCore 0%nat []) false "") 0%nat)
           (mkLogger (mkZap (ioCore 1%nat []) true "") 1%nat)).
  - reflexivity.
  - reflexivity.
  - eexists. reflexivity.
  - reflexivity.
  - cbn. lia.
Defined.

(** X11. [L] is a singleton accessor: on any store, a second call returns
    the pointer the first call returned and changes nothing. *)
Theorem L_idempotent s :
  exists p s',
    Log.L s = (Normal (Some p), s')
    /\ Log.L s' = (Normal (Some p), s').
Proof.
  unfold Log.L, LoadPointer. unfold mbind at 1 4. unfold M_bind.
  destruct (defaultLogger s) as [q|] eqn:Hq.
  - exists q, s. rewrite Hq. split; reflexivity.
  - eexists _, _. split; reflexivity.
Qed.

(** X12. Under the [development] build tag the singleton is the development
    logger: after [init], on any store and whatever the slot held, [L]
    returns the logger [init] allocated, in development and gated at
    [DebugLevel], and builds no other. *)
Theorem L_after_init_development s :
  exists s',
    (_ ← Log.init_development; Log.L) s = (Normal (Some (length (loggers s))), s')
    /\ io_logger s' (length (loggers s)) [] true "" DebugLevel
    /\ length (loggers s') = S (length (loggers s))
    /\ sink s' = sink s.
Proof.
  eexists. split; [reflexivity|]. cbn [loggers sink]. repeat split.
  - exists (mkLogger (mkZap (ioCore (length (levels s)) []) true "")
                     (length (levels s))), (length (levels s)).
    cbn. repeat split; rewrite lookup_app_r by lia;
      rewrite Nat.sub_diag; reflexivity.
  - cbn. rewrite length_app. simpl. lia.
Qed.

(** ** Malformed argument lists *)

(** X13. In development a malformed argument list aborts the call: on a
    development logger over an io core, an admitted call whose list ends
    in a dangling key panics with the dangling-key message, and one
    whose list has a pair with a non-string key (and no dangling key)
    panics with the non-string-key message; the sink receives the
    diagnostic, if the level admits it, and never the record of the
    call. *)
Theorem development_diag_panics s l enc nm X lvl msg kv :
  io_logger s l enc true nm X ->
  X <= lvl ->
  has_dangling (slots 0 kv) = true \/ slot_invalids (slots 0 kv) <> [] ->
  Log.logw l lvl msg kv s
  = if has_dangling (slots 0 kv)
    then (Panics Log.danglingKeyErrMsg,
          emit s (danglingWrites enc nm X (slots 0 kv)))
    else (Panics Log.nonStringKeyErrMsg,
          emit s (invalidWrites enc nm X (slots 0 kv))).
Proof.
  intros Hio HX Hbad.
  destruct (logw_on_io s l enc true nm X lvl msg kv Hio) as [a ->].
  unfold logw_io. rewrite checked_admitted by exact HX. cbn [andb].
  destruct (has_dangling (slots 0 kv)) eqn:Hd; [reflexivity|].
  destruct Hbad as [Hbad|Hbad]; [discriminate Hbad|].
  destruct (slot_invalids (slots 0 kv)) as [|p ps] eqn:Hi; [congruence|].
  cbn [length Nat.ltb Nat.leb fst snd].
  unfold danglingWrites. unfold has_dangling in Hd.
  destruct (dangling (slots 0 kv)); [discriminate Hd|]. reflexivity.
Qed.

Lemma development_diag_panics_witness :
  Log.logw 0%nat WarnLevel "msg" [VString "k"; VInt 1; VBool true; VInt 2] s_dev
  = (Panics Log.nonStringKeyErrMsg,
     emit s_dev [invalidDiag "" [] [mkInvalidPair 2 (VBool true) (VInt 2)]]).
Proof.
  apply (development_diag_panics s_dev 0%nat [] "" DebugLevel WarnLevel "msg"
           [VString "k"; VInt 1; VBool true; VInt 2] io_logger_dev).
  - unfold DebugLevel, WarnLevel. lia.
  - right. discriminate.
Defined.

(** The methods taking a context, each with the level it passes on. *)
Definition ctx_methods
  : list ((loc -> Context -> string -> list Value -> M unit) * Level) :=
  [(Log.Debug, DebugLevel); (Log.Info, InfoLevel); (Log.Warn, WarnLevel);
   (Log.Logger_Error, ErrorLevel); (Log.DPanic, DPanicLevel);
   (Log.Panic, PanicLevel); (Log.Fatal, FatalLevel)].

Lemma ctx_methods_logw meth lvl :
  In (meth, lvl) ctx_methods ->
  forall l ctx msg kv,
    meth l ctx msg kv = Log.logw l lvl msg (kv ++ [VField (Log.TraceId ctx)]).
Proof.
  intros Hin l ctx msg kv. cbn in Hin.
  repeat (destruct Hin as [Hin|Hin]; [injection Hin as <- <-; reflexivity|]).
  destruct Hin.
Qed.

(** X14. A lone string key at the end of the arguments of a method taking a
    context is not reported as dangling: the trace field that the method
    appends is read as the value of that key. On a logger outside
    development and for an admitted call, the record ends in a
    reflected field named by the key and holding the trace field, it
    has no "traceId" field of its own from this call, and no
    dangling-key diagnostic is written. *)
Theorem ctx_method_lone_key s l enc nm X meth lvl ctx msg pre ks :
  In (meth, lvl) ctx_methods ->
  io_logger s l enc false nm X ->
  X <= lvl ->
  dangling (slots 0 pre) = None ->
  meth l ctx msg (pre ++ [VString ks]) s
  = (terminal lvl msg,
     emit s (invalidWrites enc nm X (slots 0 pre)
             ++ [mkWritten (mkEntry lvl nm msg)
                   (enc ++ slot_fields (slots 0 pre)
                    ++ [zap.Reflect ks (VField (Log.TraceId ctx))])])).
Proof.
  intros Hin Hio HX Hpre.
  rewrite (ctx_methods_logw meth lvl Hin).
  rewrite <- app_assoc. cbn [app].
  destruct (logw_on_io s l enc false nm X lvl msg
              (pre ++ [VString ks; VField (Log.TraceId ctx)]) Hio) as [a ->].
  rewrite logw_io_admitted; [|exact HX|left; reflexivity].
  rewrite terminal_in_false. unfold record, danglingWrites, invalidWrites.
  rewrite slots_app by exact Hpre. cbn [slots].
  rewrite dangling_app by exact Hpre.
  rewrite slot_invalids_app, slot_fields_app. cbn [dangling].
  unfold slot_invalids at 2 4, slot_fields at 2.
  cbn [map concat slot_invalid slot_field zap.Any].
  rewrite !app_nil_r. reflexivity.
Qed.

Lemma ctx_method_lone_key_witness :
  Log.Warn 0%nat None "msg" ([VString "k"; VInt 1] ++ [VString "lone"]) s_prod
  = (Normal tt,
     emit s_prod
       [mkWritten (mkEntry WarnLevel "" "msg")
          [zap.Int64 "k" 1;
           zap.Reflect "lone" (VField (zap.String "traceId" "unknown"))]]).
Proof.
  apply (ctx_method_lone_key s_prod 0%nat [] "" InfoLevel Log.Warn WarnLevel None
           "msg" [VString "k"; VInt 1] "lone").
  - cbn. auto.
  - exact io_logger_prod.
  - unfold InfoLevel, WarnLevel. lia.
  - reflexivity.
Defined.

Lemma slots_sizes kv : forall i,
  (length (slot_fields (slots i kv)) + 2 * length (slot_invalids (slots i kv))
   <= length kv)%nat.
Proof.
  induction kv as [| f r IH | c r IH | k Hk | k v r Hk IH] using scan_ind;
    intros i.
  - cbn. lia.
  - cbn [slots]. specialize (IH (S i)).
    unfold slot_fields, slot_invalids in *. cbn [map concat slot_field slot_invalid].
    cbn [app length]. lia.
  - cbn [slots]. specialize (IH (S i)).
    unfold slot_fields, slot_invalids in *. cbn [map concat slot_field slot_invalid].
    rewrite length_app.
    destruct (negb (String_ (Log.TraceId (Some c)) =? Log.NoTraceId)%string);
      cbn [app length]; lia.
  - rewrite slots_last_key by exact Hk. cbn. lia.
  - rewrite slots_key by exact Hk. specialize (IH (S (S i))).
    unfold slot_fields, slot_invalids in *. cbn [map concat].
    rewrite !length_app.
    destruct k; try discriminate Hk; cbn [slot_field slot_invalid length]; lia.
Qed.

(** X15. The loop stays within the capacities it allocates: whenever it
    returns, the fields number at most [len(kv)] and the invalid pairs
    at most [len(kv)/2] (together, fields plus twice the invalid pairs
    do not exceed [len(kv)]), for every logger and argument list. *)
Theorem loop_within_capacity b kv s fs ivs s' :
  Log.logw_loop b kv (length kv) 0 [] [] s = (Normal (fs, ivs), s') ->
  (length fs <= length kv)%nat
  /\ (length ivs <= length kv / 2)%nat
  /\ (length fs + 2 * length ivs <= length kv)%nat.
Proof.
  rewrite logw_loop_start. unfold loop_result. intros H.
  assert (Hr : fs = slot_fields (slots 0 kv) /\ ivs = slot_invalids (slots 0 kv)).
  { destruct (dangling (slots 0 kv)) as [k|].
    - unfold mbind, M_bind in H.
      destruct (zaplog.DPanic b Log.danglingKeyErrMsg _ s) as [[u|pv|ec] s1];
        try discriminate H.
      cbn in H. injection H as <- <- _. split; reflexivity.
    - cbn in H. injection H as <- <- _. split; reflexivity. }
  destruct Hr as [-> ->]. pose proof (slots_sizes kv 0) as Hs.
  repeat split; [lia| |exact Hs].
  apply Nat.div_le_lower_bound; lia.
Qed.

Lemma loop_within_capacity_witness :
  (length [zap.Int64 "k" 1] <= 5)%nat
  /\ (length [mkInvalidPair 2 (VBool true) (VInt 2)] <= 5 / 2)%nat
  /\ (length [zap.Int64 "k" 1] + 2 * length [mkInvalidPair 2 (VBool true) (VInt 2)]
      <= 5)%nat.
Proof.
  apply (loop_within_capacity (mkZap (ioCore 0%nat []) false "")
           [VString "k"; VInt 1; VBool true; VInt 2; VString "lone"] s_prod
           [zap.Int64 "k" 1] [mkInvalidPair 2 (VBool true) (VInt 2)]
           (emit s_prod [danglingDiag "" [] (VString "lone")])).
  reflexivity.
Defined.

(** ** The formatted methods *)

Lemma bind_ext {A B} (m : M A) (f g : A -> M B) s :
  (forall a s', f a s' = g a s') -> (x ← m; f x) s = (x ← m; g x) s.
Proof.
  intros H. unfold mbind, M_bind.
  destruct (m s) as [[a|v|c] s1]; [apply H | reflexivity | reflexivity].
Qed.

Module Formatted.

Section Fmt.

(** [fmt.Sprint] and [fmt.Sprintf], taken as given. *)
Variable Sprint : list Value -> string.
Variable Sprintf : string -> list Value -> string.

(** The message [logf] builds from its format and arguments. *)
Definition message (format : string) (args : list Value) : string :=
  if (0 <? length args)%nat then
    if String.eqb format "" then Sprint args else Sprintf format args
  else format.

(** [logf]. As in [logw] the receiver's [base] is read once. *)
Definition logf (l : loc) (lvl : Level) (format : string) (args : list Value)
  : M unit :=
  x ← deref l;
  disabled ← (if lvl <? DPanicLevel
              then en ← zaplog.Core_Enabled (core (base x)) lvl; mret (negb en)
              else mret false);
  if disabled : bool then mret tt
  else
    let format :=
      if (0 <? length args)%nat then
        if String.eqb format "" then Sprint args else Sprintf format args
      else format in
    ce ← zaplog.Check (base x) lvl format;
    match ce with
    | Some ce => zaplog.CheckedEntry_Write ce []
    | None => mret tt
    end.

Definition Debugf (l : loc) (format : string) (args : list Value) : M unit :=
  logf l DebugLevel format args.
Definition Infof (l : loc) (format : string) (args : list Value) : M unit :=
  logf l InfoLevel format args.
Definition Warnf (l : loc) (format : string) (args : list Value) : M unit :=
  logf l WarnLevel format args.
Definition Errorf (l : loc) (format : string) (args : list Value) : M unit :=
  logf l ErrorLevel format args.
Definition DPanicf (l : loc) (format : string) (args : list Value) : M unit :=
  logf l DPanicLevel format args.
Definition Panicf (l : loc) (format : string) (args : list Value) : M unit :=
  logf l PanicLevel format args.
Definition Fatalf (l : loc) (format : string) (args : list Value) : M unit :=
  logf l FatalLevel format args.

(** X16. Without arguments a formatted call is the keyed call without
    key/values: on every store and for every receiver and level,
    [logf] with the format as it stands does what [logw] does with that
    message, the format being taken verbatim (it is not handed to
    [Sprintf]). *)
Theorem logf_no_args l lvl format s :
  logf l lvl format [] s = Log.logw l lvl format [] s.
Proof.
  unfold logf, Log.logw.
  apply bind_ext. intros x s1.
  apply bind_ext. intros [|] s2; [reflexivity|].
  cbn [length Nat.ltb Nat.leb]. cbv zeta.
  apply bind_ext. intros [ce|] s3; reflexivity.
Qed.

(** X17. A formatted call on a logger over an io core: from the level of the
    core's cell up it writes exactly one record, whose message is the
    built message ([Sprint] of the arguments under an empty format,
    [Sprintf] otherwise, the format itself without arguments) and whose
    fields are the logger's bound fields only -- the arguments are never
    read as keys and values and no diagnostic is written; below that
    level it writes nothing. *)
Theorem logf_io s l enc d nm X lvl format args :
  io_logger s l enc d nm X ->
  (X <= lvl ->
   logf l lvl format args s
   = (terminal_in d lvl (message format args),
      emit s [mkWritten (mkEntry lvl nm (message format args)) enc]))
  /\ (lvl < X -> sink (snd (logf l lvl format args s)) = sink s).
Proof.
  intros (x & a & Hl & Hb & HX).
  assert (Hrun : logf l lvl format args s
    = match checked a enc d nm X lvl (message format args) with
      | Some ce =>
          (after_write ce,
           emit s (concat (map (core_writes (ceEntry ce) []) (cores ce))))
      | None => (Normal tt, s)
      end).
  { unfold logf. erewrite bind_normal by (apply deref_ok; exact Hl).
    rewrite Hb. cbn [core].
    erewrite bind_normal by (apply gate_io; exact HX).
    fold (message format args).
    destruct ((lvl <? DPanicLevel) && negb (X <=? lvl)) eqn:Hgate.
    { unfold checked. rewrite Hgate. reflexivity. }
    cbv zeta. erewrite bind_normal by (apply Check_io; exact HX).
    destruct (checked a enc d nm X lvl (message format args)); [|reflexivity].
    apply CheckedEntry_Write_emit. }
  rewrite Hrun. split.
  - intros Hle. rewrite checked_admitted by exact Hle.
    unfold after_write, terminal_in. cbn [should ceEntry cores map concat core_writes Message app].
    rewrite app_nil_r.
    destruct (lvl =? PanicLevel); [reflexivity|].
    destruct (lvl =? FatalLevel); [reflexivity|].
    destruct ((lvl =? DPanicLevel) && d); reflexivity.
  - intros Hlt. pose proof (checked_below a enc d nm X lvl (message format args) Hlt) as Hc.
    destruct (checked a enc d nm X lvl (message format args)) as [ce|]; [|reflexivity].
    destruct Hc as [-> _]. cbn. apply app_nil_r.
Qed.

End Fmt.

End Formatted.

Lemma logf_io_witness :
  let Sprint := fun _ : list Value => "sprint" in
  let Sprintf := fun (f : string) (_ : list Value) => String.append f "!" in
  Formatted.Infof Sprint Sprintf 0%nat "user %s" [VString "k"; VInt 1] s_prod
  = (Normal tt, emit s_prod [mkWritten (mkEntry InfoLevel "" "user %s!") []])
  /\ sink (snd (Formatted.Debugf Sprint Sprintf 0%nat "user %s" [VString "k"] s_prod))
     = [].
Proof.
  cbv zeta.
  split.
  - apply (Formatted.logf_io (fun _ => "sprint") (fun f _ => String.append f "!")
             s_prod 0%nat [] false "" InfoLevel InfoLevel "user %s"
             [VString "k"; VInt 1] io_logger_prod).
    unfold InfoLevel. lia.
  - apply (Formatted.logf_io (fun _ => "sprint") (fun f _ => String.append f "!")
             s_prod 0%nat [] false "" InfoLevel DebugLevel "user %s"
             [VString "k"] io_logger_prod).
    unfold InfoLevel, DebugLevel. lia.
Defined.

(** ** Field constructors *)

(** X18. [ProductID] keeps the 64 bits of its argument: for every [uint64]
    value the stored [int64] lies in the signed range and is congruent
    to the value modulo 2^64; it is the value itself below 2^63 and the
    value minus 2^64, a negative number, from 2^63 up. *)
Theorem ProductID_bits (v : Z) :
  0 <= v < 2 ^ 64 ->
  let f := Log.ProductID v in
  Key f = "product_id" /\ Type_ f = Uint64Type
  /\ - 2 ^ 63 <= Integer f < 2 ^ 63
  /\ Integer f mod 2 ^ 64 = v
  /\ (v < 2 ^ 63 -> Integer f = v)
  /\ (2 ^ 63 <= v -> Integer f = v - 2 ^ 64).
Proof.
  intros Hv. cbv zeta. unfold Log.ProductID, int64_of_uint64. cbn [Key Type_ Integer].
  rewrite (Z.mod_small v) by exact Hv.
  split; [reflexivity|]. split; [reflexivity|].
  destruct (Z.ltb_spec v (2 ^ 63)) as [Hlt|Hge].
  - repeat split; try lia. apply Z.mod_small. exact Hv.
  - repeat split; try lia.
    replace (v - 2 ^ 64) with (v + (-1) * 2 ^ 64) by lia.
    rewrite Z_mod_plus_full. apply Z.mod_small. exact Hv.
Qed.

Lemma ProductID_bits_witness :
  Integer (Log.ProductID (2 ^ 64 - 1)) = -1
  /\ Integer (Log.ProductID 42) = 42.
Proof.
  destruct (ProductID_bits (2 ^ 64 - 1)) as (_ & _ & _ & _ & _ & H); [lia|].
  destruct (ProductID_bits 42) as (_ & _ & _ & _ & H' & _); [lia|].
  split.
  - rewrite H by lia. reflexivity.
  - apply H'. lia.
Defined.

Lemma hexdigit_inj n m :
  (n < 16)%N -> (m < 16)%N -> otel.hexdigit n = otel.hexdigit m -> n = m.
Proof.
  intros Hn Hm H. apply N2Nat.inj.
  assert (Hn' : (N.to_nat n < 16)%nat) by lia.
  assert (Hm' : (N.to_nat m < 16)%nat) by lia.
  unfold otel.hexdigit in H.
  revert Hn' Hm' H. generalize (N.to_nat n) (N.to_nat m). clear.
  intros i j Hi Hj H.
  do 16 (destruct i as [|i];
         [do 16 (destruct j as [|j];
                 [first [reflexivity | discriminate H]|]); lia|]).
  lia.
Qed.

Lemma hex_byte_inj x y :
  otel.hexdigit (Byte.to_N x / 16) = otel.hexdigit (Byte.to_N y / 16) ->
  otel.hexdigit (Byte.to_N x mod 16) = otel.hexdigit (Byte.to_N y mod 16) ->
  x = y.
Proof.
  intros Hhi Hlo.
  pose proof (Byte.to_N_bounded x) as Bx. pose proof (Byte.to_N_bounded y) as By.
  apply hexdigit_inj in Hhi;
    [|apply N.Div0.div_lt_upper_bound; lia|apply N.Div0.div_lt_upper_bound; lia].
  apply hexdigit_inj in Hlo; [|apply N.mod_lt; lia|apply N.mod_lt; lia].
  assert (E : Byte.to_N x = Byte.to_N y).
  { rewrite (N.div_mod (Byte.to_N x) 16), (N.div_mod (Byte.to_N y) 16) by lia.
    rewrite Hhi, Hlo. reflexivity. }
  pose proof (Byte.of_to_N x) as Ex. rewrite E, Byte.of_to_N in Ex.
  injection Ex as ->. reflexivity.
Qed.

Lemma hex_inj a : forall b,
  length a = length b -> otel.hex a = otel.hex b -> a = b.
Proof.
  induction a as [|x r IH]; intros [|y r'] Hlen H; try discriminate Hlen.
  - reflexivity.
  - cbn [otel.hex] in H. injection H as Hhi Hlo Hr.
    f_equal.
    + apply hex_byte_inj; assumption.
    + apply IH; [simpl in Hlen; lia | exact Hr].
Qed.

(** X19. Trace fields tell trace ids apart: two contexts carrying valid
    trace ids yield the same "traceId" field only when the two trace ids
    are the same 16 bytes. *)
Theorem TraceId_distinguishes (t1 t2 : TraceID) :
  otel.IsValid t1 = true ->
  otel.IsValid t2 = true ->
  Log.TraceId (Some (mkCtx (Some t1))) = Log.TraceId (Some (mkCtx (Some t2))) ->
  t1 = t2.
Proof.
  intros H1 H2 H. unfold Log.TraceId in H.
  cbn [otel.SpanFromContext_TraceID] in H. rewrite H1, H2 in H.
  injection H as H. unfold otel.TraceID_String in H.
  apply vec_to_list_inj2, hex_inj; [|exact H].
  rewrite !length_vec_to_list. reflexivity.
Qed.

Lemma TraceId_distinguishes_witness :
  (vreplicate 16 x2a : TraceID) = vreplicate 16 x2a.
Proof.
  apply (TraceId_distinguishes (vreplicate 16 x2a) (vreplicate 16 x2a));
    reflexivity.
Defined.
